(** * live_transcribe: energy-based voice activity detection

    A shallow embedding of [live_transcribe.py]: the RMS meter
    ([calculate_rms]), the noise calibration ([calibrate_noise]), the
    capture loop of [main] with its recording state, and the transcription
    worker ([transcribe_worker]).  The audio library, the clock, the speech
    model, the clipboard and the keystroke injection are inputs of the
    model: each call returns what the outside provides, or raises.

    Numeric model.  Samples, loudness values, thresholds and clock readings
    are Python/NumPy floats in the source; here they are real numbers, so
    every statement below is about the exact arithmetic the floating-point
    code approximates.  Sample counts and block sizes are natural numbers. *)

From Stdlib Require Import String Ascii Reals Lra Lia ZArith Bool Arith List.
Import ListNotations.

Open Scope R_scope.

(** ** Configuration (module-level constants of the source) *)

Definition SAMPLE_RATE : Z := 16000.
Definition CHANNELS : nat := 1.
Definition BLOCK_SIZE : nat := 1024.
Definition SILENCE_THRESHOLD_MULTIPLIER : R := 2.
Definition SILENCE_DURATION : R := 2.
Definition MIN_RECORDING_DURATION : R := 1 / 2.

(** ** Python values the program manipulates *)

(** A mono array of samples: [indata], [recording], [full_audio].  With
    [CHANNELS = 1] an array of shape (n, 1) holds the same numbers as the
    flat sequence of its n frames, and [len] is the number of frames. *)
Definition samples := list R.

(** A raised Python exception, of a class deriving from [Exception] (what
    [except Exception] catches): its class and its message. *)
Record PyExc : Set := mkExc { exc_class : string; exc_msg : string }.

(** The result of a call that may raise. *)
Inductive outcome (A : Type) : Type :=
| Returns (a : A)
| Raises (e : PyExc).
Arguments Returns {A} a.
Arguments Raises {A} e.

Definition bind {A B : Type} (m : outcome A) (k : A -> outcome B) : outcome B :=
  match m with
  | Returns a => k a
  | Raises e => Raises e
  end.

Notation "x <- m ;; k" := (bind m (fun x => k))
  (at level 61, m at next level, right associativity).

(** [N % 0] on Python integers (the message is CPython's up to 3.10; later
    versions word it differently). *)
Definition ZeroDivisionError : PyExc :=
  mkExc "ZeroDivisionError" "integer division or modulo by zero".
Definition SplitValueError : PyExc :=
  mkExc "ValueError" "array split does not result in an equal division".
Definition EmptyMaxValueError : PyExc :=
  mkExc "ValueError" "zero-size array to reduction operation maximum which has no identity".

(** ** NumPy operations used by the source *)

Definition np_sum (a : list R) : R := fold_right Rplus 0 a.

(** [a ** 2], elementwise. *)
Definition np_square (a : list R) : list R := map (fun x => x * x) a.

(** [np.mean(a)]: the sum over the number of elements. *)
Definition np_mean (a : list R) : R := np_sum a / INR (length a).

(** [np.max(a)]: raises on an empty array. *)
Definition np_max (a : list R) : outcome R :=
  match a with
  | [] => Raises EmptyMaxValueError
  | x :: xs => Returns (fold_left Rmax xs x)
  end.

(** [sections] consecutive pieces of [each] elements. *)
Fixpoint take_sections (each sections : nat) (ary : list R) : list (list R) :=
  match sections with
  | O => []
  | S k => firstn each ary :: take_sections each k (skipn each ary)
  end.

(** [np.split(ary, sections)] with an integer [sections]: the remainder
    [N % sections] is evaluated first (a zero [sections] raises there), an
    unequal division raises [ValueError], otherwise the array is cut into
    [sections] pieces of [N // sections] elements. *)
Definition np_split (ary : list R) (sections : nat) : outcome (list (list R)) :=
  match sections with
  | O => Raises ZeroDivisionError
  | S _ =>
      if (length ary mod sections =? 0)%nat
      then Returns (take_sections (length ary / sections) sections ary)
      else Raises SplitValueError
  end.

(** Python's builtin [max(a, b)] on two numbers: [b] only when [b > a]. *)
Definition py_max (a b : R) : R := if Rgt_dec b a then b else a.

(** ** RMS meter *)

(** [calculate_rms]: [np.sqrt(np.mean(audio_chunk**2))]. *)
Definition calculate_rms (audio_chunk : samples) : R :=
  sqrt (np_mean (np_square audio_chunk)).

(** ** Noise calibration *)

(** [int(x)] on a float: truncation toward zero. *)
Definition py_int (x : R) : Z :=
  if Rle_dec 0 x then Int_part x else (- Int_part (- x))%Z.

(** The local constant [min_threshold = 0.001] of [calibrate_noise]. *)
Definition min_threshold : R := 1 / 1000.

(** The body of [calibrate_noise] after the recording was captured.  The
    multiplier is the module global [SILENCE_THRESHOLD_MULTIPLIER], taken as
    an argument here.  The progress lines the function prints (with the
    average RMS) are left out: they do not influence the value returned. *)
Definition calibrate_recording_with (multiplier : R) (recording : samples)
  : outcome R :=
  let num_blocks := (length recording / BLOCK_SIZE)%nat in
  let recording := firstn (num_blocks * BLOCK_SIZE) recording in
  blocks <- np_split recording num_blocks ;;
  let rms_values := map calculate_rms blocks in
  max_rms <- np_max rms_values ;;
  let threshold := max_rms * multiplier in
  let threshold := py_max threshold min_threshold in
  Returns threshold.

(** [calibrate_noise(duration)].  [sd_rec frames] stands for the blocking
    capture [sd.rec(frames, ...); sd.wait()] of the audio library: it either
    raises or hands back the recording. *)
Definition calibrate_noise_with
  (sd_rec : Z -> outcome samples) (multiplier : R) (duration : R) : outcome R :=
  recording <- sd_rec (py_int (duration * IZR SAMPLE_RATE)) ;;
  calibrate_recording_with multiplier recording.

Definition calibrate_noise (sd_rec : Z -> outcome samples) (duration : R)
  : outcome R :=
  calibrate_noise_with sd_rec SILENCE_THRESHOLD_MULTIPLIER duration.

(** The blocks as the specification words them: the recording cut into
    consecutive blocks of [BLOCK_SIZE] samples, an incomplete last block
    dropped; block [i] holds the samples from [i * BLOCK_SIZE] on. *)
Definition spec_blocks (recording : samples) : list samples :=
  map (fun i => firstn BLOCK_SIZE (skipn (i * BLOCK_SIZE) recording))
      (seq 0 (length recording / BLOCK_SIZE)).

(** The distinguished calibration failure the specification names. *)
Definition CalibrationIOError (msg : string) : PyExc :=
  mkExc "CalibrationIOError" msg.

(** The exception class of the audio library. *)
Definition PortAudioError (msg : string) : PyExc :=
  mkExc "PortAudioError" msg.

(** ** The capture loop of [main] *)

(** A line printed on the console. *)
Inductive line : Set :=
| Out (s : string)
| Err (s : string).

Definition line_eq_dec (a b : line) : {a = b} + {a <> b}.
Proof. decide equality; apply string_dec. Defined.

(** What the loop owns between two iterations: the three local variables,
    the entries put on [transcription_queue] so far (oldest first, [None] is
    the shutdown sentinel) and the lines printed so far. *)
Record CaptureState : Type := mkCapture {
  audio_buffer : list samples;
  is_recording : bool;
  silence_start_time : option R;
  transcription_queue : list (option samples);
  console : list line
}.

(** What one iteration receives from outside: the result of
    [stream.read(BLOCK_SIZE)], and the values [time.time()] returns where the
    silence timer is started ([clock_start], read only when the timer is
    unset) and where it is compared ([clock_check]). *)
Record Tick : Type := mkTick {
  indata : samples;
  overflowed : bool;
  clock_start : R;
  clock_check : R
}.

Definition print (l : line) (st : CaptureState) : CaptureState :=
  mkCapture (audio_buffer st) (is_recording st) (silence_start_time st)
            (transcription_queue st) (console st ++ [l]).

Definition queue_put (entry : option samples) (st : CaptureState) : CaptureState :=
  mkCapture (audio_buffer st) (is_recording st) (silence_start_time st)
            (transcription_queue st ++ [entry]) (console st).

Definition set_audio_buffer (b : list samples) (st : CaptureState) : CaptureState :=
  mkCapture b (is_recording st) (silence_start_time st)
            (transcription_queue st) (console st).

Definition set_is_recording (r : bool) (st : CaptureState) : CaptureState :=
  mkCapture (audio_buffer st) r (silence_start_time st)
            (transcription_queue st) (console st).

Definition set_silence_start_time (t : option R) (st : CaptureState) : CaptureState :=
  mkCapture (audio_buffer st) (is_recording st) t
            (transcription_queue st) (console st).

Definition buffer_append (block : samples) (st : CaptureState) : CaptureState :=
  set_audio_buffer (audio_buffer st ++ [block]) st.

Definition overflow_line : line := Err "Audio buffer overflowed (input)".
Definition speech_line : line := Out "Speech detected, starting recording...".
Definition end_of_speech_line : line := Out "End of speech detected.".
Definition too_short_line : line := Out "Recording too short, discarding.".
Definition listening_line : line := Out "Listening...".

(** The end of a segment: the part of the loop body under
    [if time.time() - silence_start_time > SILENCE_DURATION]. *)
Definition close_segment (st : CaptureState) : CaptureState :=
  let st := print end_of_speech_line st in
  let full_audio := concat (audio_buffer st) in
  let duration := INR (length full_audio) / IZR SAMPLE_RATE in
  let st :=
    if Rge_dec duration MIN_RECORDING_DURATION
    then queue_put (Some full_audio) st
    else print too_short_line st in
  let st := set_is_recording false st in
  let st := set_audio_buffer [] st in
  let st := set_silence_start_time None st in
  print listening_line st.

(** [if overflowed: print(..., file=sys.stderr)]. *)
Definition report_overflow (tk : Tick) (st : CaptureState) : CaptureState :=
  if overflowed tk then print overflow_line st else st.

(** One iteration of the [while True] loop of [main]. *)
Definition loop_iteration (threshold : R) (st : CaptureState) (tk : Tick)
  : CaptureState :=
  let st := report_overflow tk st in
  let rms := calculate_rms (indata tk) in
  if Rgt_dec rms threshold then
    let st :=
      if negb (is_recording st)
      then set_audio_buffer [] (set_is_recording true (print speech_line st))
      else st in
    let st := buffer_append (indata tk) st in
    set_silence_start_time None st
  else if is_recording st then
    let st := buffer_append (indata tk) st in
    let started :=
      match silence_start_time st with
      | None => clock_start tk
      | Some t0 => t0
      end in
    let st := set_silence_start_time (Some started) st in
    if Rgt_dec (clock_check tk - started) SILENCE_DURATION
    then close_segment st
    else st
  else st.

(** The loop over the blocks the stream delivers. *)
Definition capture_loop (threshold : R) (st : CaptureState) (ticks : list Tick)
  : CaptureState :=
  fold_left (loop_iteration threshold) ticks st.

(** The local variables of [main] when the loop is entered. *)
Definition initial_state : CaptureState := mkCapture [] false None [] [].

(** The [KeyboardInterrupt] handler: the sentinel is put on the queue. *)
Definition stop (st : CaptureState) : CaptureState :=
  queue_put None (print (Out (String "010" "Stopping...")) st).

(** The number of segments closed so far, read off the console. *)
Definition segments_closed (st : CaptureState) : nat :=
  count_occ line_eq_dec (console st) end_of_speech_line.

(** The machine part of the state: what the voice activity state machine
    owns, without the console. *)
Definition machine (st : CaptureState)
  : list samples * bool * option R * list (option samples) :=
  (audio_buffer st, is_recording st, silence_start_time st, transcription_queue st).

(** The time the silence timer holds once a quiet block was seen. *)
Definition silence_started (st : CaptureState) (tk : Tick) : R :=
  match silence_start_time st with
  | None => clock_start tk
  | Some t0 => t0
  end.

(** The queue entries a closing segment adds: the segment itself when it is
    long enough, nothing otherwise. *)
Definition dispatched (segment : samples) : list (option samples) :=
  if Rge_dec (INR (length segment) / IZR SAMPLE_RATE) MIN_RECORDING_DURATION
  then [Some segment] else [].

(** The same tick without the overflow flag. *)
Definition without_overflow (tk : Tick) : Tick :=
  mkTick (indata tk) false (clock_start tk) (clock_check tk).

(** The number of overflow warnings printed so far. *)
Definition overflow_reports (st : CaptureState) : nat :=
  count_occ line_eq_dec (console st) overflow_line.

(** ** The transcription worker *)

(** What the worker does to the outside, in order. *)
Inductive message : Type :=
| MsgTranscribing (duration : R)
| MsgTranscribed (text : string)
| MsgNoText
| MsgTyping (text : string)
| MsgError (e : PyExc).

Inductive effect : Type :=
| Print (m : message)
| Transcribe (audio : samples)
| ClipboardCopy (text : string)
| Hotkey (modifier key : string)
| TaskDone.

(** A computation of the worker: the effects performed, then the result or
    the exception that cut it short. *)
Definition io (A : Type) : Type := (list effect * outcome A)%type.

Definition io_ret {A : Type} (a : A) : io A := ([], Returns a).

Definition io_bind {A B : Type} (m : io A) (k : A -> io B) : io B :=
  match m with
  | (t, Returns a) => let (t', r) := k a in (t ++ t', r)
  | (t, Raises e) => (t, Raises e)
  end.

Definition emit (e : effect) : io unit := ([e], Returns tt).

(** A call of an external collaborator: the call is performed, its outcome
    is the collaborator's. *)
Definition call {A : Type} (e : effect) (r : outcome A) : io A := ([e], r).

Notation "x <~ m ;; k" := (io_bind m (fun x => k))
  (at level 61, m at next level, right associativity).

(** [str.strip()] on the ASCII range: the characters for which
    [str.isspace] holds are 9 to 13 and 28 to 32. *)
Definition is_space (c : ascii) : bool :=
  let n := nat_of_ascii c in
  ((9 <=? n)%nat && (n <=? 13)%nat) || ((28 <=? n)%nat && (n <=? 32)%nat).

Fixpoint lstrip (s : list ascii) : list ascii :=
  match s with
  | [] => []
  | c :: s' => if is_space c then lstrip s' else s
  end.

Definition strip (s : string) : string :=
  string_of_list_ascii
    (rev (lstrip (rev (lstrip (list_ascii_of_string s))))).

(** [audio_data.flatten().astype(np.float32)]: the same samples, flat. *)
Definition flatten (audio_data : samples) : samples := audio_data.

Section Worker.

(** The external collaborators: the speech model ([model.transcribe],
    of which only [result["text"]] is used), the clipboard and the
    keystroke injection.  Each may raise. *)
Variable model_transcribe : samples -> outcome string.
Variable pyperclip_copy : string -> outcome unit.
Variable pyautogui_hotkey : string -> string -> outcome unit.

(** [type_text]. *)
Definition type_text (text : string) : io unit :=
  match text with
  | EmptyString => io_ret tt
  | _ =>
      _ <~ emit (Print (MsgTyping text)) ;;
      _ <~ call (ClipboardCopy (text ++ " ")) (pyperclip_copy (text ++ " ")) ;;
      call (Hotkey "command" "v") (pyautogui_hotkey "command" "v")
  end.

(** The [try] block of the worker. *)
Definition transcribe_entry (audio_data : samples) : io unit :=
  let audio_flattened := flatten audio_data in
  let duration := INR (length audio_flattened) / IZR SAMPLE_RATE in
  _ <~ emit (Print (MsgTranscribing duration)) ;;
  raw <~ call (Transcribe audio_flattened) (model_transcribe audio_flattened) ;;
  let text := strip raw in
  match text with
  | EmptyString => emit (Print MsgNoText)
  | _ =>
      _ <~ emit (Print (MsgTranscribed text)) ;;
      type_text text
  end.

(** [try ... except Exception ... finally task_done()] for one entry. *)
Definition process_entry (audio_data : samples) : list effect :=
  let (t, r) := transcribe_entry audio_data in
  t ++ match r with
       | Returns _ => []
       | Raises e => [Print (MsgError e)]
       end
    ++ [TaskDone].

(** How a run of the worker over the entries put on the queue ends: it
    left its loop (the entries after the sentinel stay on the queue), or
    it is blocked in [get()] on the empty queue. *)
Inductive worker_end : Type :=
| Exited (remaining : list (option samples))
| Waiting.

(** [transcribe_worker], run on the sequence of entries the queue hands
    out, in the order they were put. *)
Fixpoint transcribe_worker (entries : list (option samples))
  : list effect * worker_end :=
  match entries with
  | [] => ([], Waiting)
  | None :: rest => ([], Exited rest)
  | Some audio_data :: rest =>
      let (t, e) := transcribe_worker rest in
      (process_entry audio_data ++ t, e)
  end.

End Worker.

Definition is_task_done (e : effect) : bool :=
  match e with TaskDone => true | _ => false end.

(** [Queue.unfinished_tasks]: one per [put], minus one per [task_done]. *)
Definition unfinished_tasks (entries : list (option samples)) (t : list effect)
  : nat :=
  (length entries - length (filter is_task_done t))%nat.

(** The texts handed to the clipboard, in order. *)
Definition delivered (t : list effect) : list string :=
  flat_map (fun e => match e with ClipboardCopy s => [s] | _ => [] end) t.

(** The audio handed to the speech model, in order. *)
Definition transcribed (t : list effect) : list samples :=
  flat_map (fun e => match e with Transcribe a => [a] | _ => [] end) t.

(** ** Further notions about the capture loop *)

(** A segment of at least [MIN_RECORDING_DURATION] seconds. *)
Definition long_enough (segment : samples) : Prop :=
  INR (length segment) / IZR SAMPLE_RATE >= MIN_RECORDING_DURATION.

(** The number of segments discarded so far, read off the console. *)
Definition segments_discarded (st : CaptureState) : nat :=
  count_occ line_eq_dec (console st) too_short_line.

(** What holds of the three local variables between two iterations: while
    idle the buffer is empty and the silence timer unset; while recording
    the buffer holds at least one block. *)
Definition settled (st : CaptureState) : Prop :=
  (is_recording st = false ->
   audio_buffer st = [] /\ silence_start_time st = None)
  /\ (is_recording st = true -> audio_buffer st <> []).

(** The default argument of [calibrate_noise(duration=2.0)], with which
    [main] calls it. *)
Definition DEFAULT_DURATION : R := 2.


(** ** The recording test, [test_audio.py] *)





(** ** Facts about the RMS meter *)


Lemma INR_length_pos {A : Type} (l : list A) : l <> [] -> 0 < INR (length l).
Proof.
  intros Hne. destruct l as [|x l]; [congruence|].
  apply lt_0_INR. simpl. lia.
Qed.


Lemma calculate_rms_nonneg (a : samples) : 0 <= calculate_rms a.
Proof. unfold calculate_rms. apply sqrt_pos. Qed.

Lemma np_sum_square_const (c : R) (a : list R) :
  Forall (fun x => Rabs x = c) a ->
  np_sum (np_square a) = INR (length a) * (c * c).
Proof.
  induction 1 as [|x a Hx _ IH].
  - simpl. lra.
  - change (np_sum (np_square (x :: a))) with (x * x + np_sum (np_square a)).
    rewrite IH. change (length (x :: a)) with (S (length a)). rewrite S_INR.
    assert (Hsq : x * x = c * c).
    { rewrite <- Hx. unfold Rabs. destruct (Rcase_abs x); lra. }
    rewrite Hsq. lra.
Qed.

Lemma calculate_rms_const (c : R) (a : samples) :
  a <> [] -> Forall (fun x => Rabs x = c) a -> calculate_rms a = c.
Proof.
  intros Hne Hall.
  assert (Hc : 0 <= c).
  { destruct Hall as [|x a Hx _]; [congruence|]. rewrite <- Hx. apply Rabs_pos. }
  unfold calculate_rms, np_mean.
  rewrite (np_sum_square_const c a Hall).
  unfold np_square. rewrite length_map.
  pose proof (INR_length_pos a Hne) as Hpos.
  replace (INR (length a) * (c * c) / INR (length a)) with (c * c) by (field; lra).
  now apply sqrt_square.
Qed.

Lemma calculate_rms_repeat (c : R) (n : nat) :
  (0 < n)%nat -> calculate_rms (repeat c n) = Rabs c.
Proof.
  intros Hn. apply calculate_rms_const.
  - destruct n; [lia|]. discriminate.
  - apply Forall_forall. intros x Hx. apply repeat_spec in Hx. now subst.
Qed.



(** ** Facts about the calibration *)

Lemma BLOCK_SIZE_pos : (0 < BLOCK_SIZE)%nat.
Proof. unfold BLOCK_SIZE. lia. Qed.

Lemma py_max_Rmax (a b : R) : py_max a b = Rmax a b.
Proof.
  unfold py_max, Rmax.
  destruct (Rgt_dec b a), (Rle_dec a b); lra.
Qed.

Lemma take_sections_seq (each k : nat) (l : list R) :
  take_sections each k l
  = map (fun i => firstn each (skipn (i * each) l)) (seq 0 k).
Proof.
  revert l. induction k as [|k IH]; intros l; [reflexivity|].
  cbn [take_sections seq map]. f_equal.
  rewrite IH, <- seq_shift, map_map.
  apply map_ext. intros i.
  rewrite skipn_skipn. do 2 f_equal. lia.
Qed.

Lemma concat_take_sections (each k : nat) (l : list R) :
  concat (take_sections each k l) = firstn (k * each) l.
Proof.
  revert l. induction k as [|k IH]; intros l; [reflexivity|].
  cbn [take_sections concat]. rewrite IH.
  rewrite <- (firstn_skipn each (firstn (S k * each) l)).
  rewrite firstn_firstn, skipn_firstn_comm.
  replace (Nat.min each (S k * each)) with each by lia.
  replace (S k * each - each)%nat with (k * each)%nat by lia.
  reflexivity.
Qed.

(** The cut [np.split] makes of the truncated recording is the one the
    specification describes. *)
Lemma np_split_truncated (recording : samples) :
  (BLOCK_SIZE <= length recording)%nat ->
  np_split (firstn (length recording / BLOCK_SIZE * BLOCK_SIZE) recording)
           (length recording / BLOCK_SIZE)
  = Returns (spec_blocks recording).
Proof.
  intros Hlen. pose proof BLOCK_SIZE_pos as Hpos.
  set (nb := (length recording / BLOCK_SIZE)%nat).
  assert (Hnb : (0 < nb)%nat) by (apply Nat.div_str_pos; lia).
  assert (Hle : (nb * BLOCK_SIZE <= length recording)%nat).
  { rewrite Nat.mul_comm. apply Nat.Div0.mul_div_le. }
  assert (Hl : length (firstn (nb * BLOCK_SIZE) recording) = (nb * BLOCK_SIZE)%nat).
  { rewrite length_firstn. lia. }
  unfold np_split. destruct nb as [|k] eqn:Ek; [lia|]. rewrite <- Ek in *.
  rewrite Hl.
  replace ((nb * BLOCK_SIZE) mod nb)%nat with 0%nat
    by (rewrite Nat.mul_comm, Nat.Div0.mod_mul; reflexivity).
  cbn [Nat.eqb].
  replace (nb * BLOCK_SIZE / nb)%nat with BLOCK_SIZE
    by (rewrite Nat.mul_comm, Nat.div_mul; [reflexivity|lia]).
  rewrite take_sections_seq. unfold spec_blocks. fold nb.
  f_equal. apply map_ext_in. intros i Hi. apply in_seq in Hi.
  rewrite skipn_firstn_comm, firstn_firstn. f_equal. nia.
Qed.

Lemma spec_blocks_length (recording : samples) :
  Forall (fun b => length b = BLOCK_SIZE) (spec_blocks recording).
Proof.
  pose proof BLOCK_SIZE_pos as Hpos.
  apply Forall_forall. intros b Hb. unfold spec_blocks in Hb.
  apply in_map_iff in Hb. destruct Hb as [i [<- Hi]]. apply in_seq in Hi.
  assert (Hle : (BLOCK_SIZE * (length recording / BLOCK_SIZE) <= length recording)%nat)
    by apply Nat.Div0.mul_div_le.
  rewrite length_firstn, length_skipn. nia.
Qed.

Lemma spec_blocks_concat (recording : samples) :
  concat (spec_blocks recording)
  = firstn (length recording / BLOCK_SIZE * BLOCK_SIZE) recording.
Proof.
  unfold spec_blocks. rewrite <- take_sections_seq. apply concat_take_sections.
Qed.

Lemma spec_blocks_nonempty (recording : samples) :
  (BLOCK_SIZE <= length recording)%nat -> spec_blocks recording <> [].
Proof.
  intros Hlen Hnil. pose proof BLOCK_SIZE_pos as Hpos.
  assert (Hnb : (0 < length recording / BLOCK_SIZE)%nat)
    by (apply Nat.div_str_pos; lia).
  apply (f_equal (@length _)) in Hnil.
  unfold spec_blocks in Hnil. rewrite length_map, length_seq in Hnil.
  cbn [length] in Hnil. lia.
Qed.

(** [fold_left Rmax] returns the greatest element. *)
Lemma fold_left_Rmax_greatest (xs : list R) (x : R) :
  In (fold_left Rmax xs x) (x :: xs)
  /\ Forall (fun r => r <= fold_left Rmax xs x) (x :: xs).
Proof.
  revert x. induction xs as [|y xs IH]; intros x.
  - simpl. split; [now left|]. constructor; [lra|constructor].
  - cbn [fold_left]. destruct (IH (Rmax x y)) as [Hin Hall]. split.
    + destruct Hin as [Heq|Hin].
      * rewrite <- Heq. unfold Rmax. destruct (Rle_dec x y).
        -- right. now left.
        -- now left.
      * right. now right.
    + inversion Hall as [|? ? Hhd Htl]; subst.
      pose proof (Rmax_l x y). pose proof (Rmax_r x y).
      constructor; [lra|]. constructor; [lra|exact Htl].
Qed.

(** The value computed from a recording that holds a full block. *)
Lemma calibrate_recording_with_value (multiplier : R) (recording : samples) :
  (BLOCK_SIZE <= length recording)%nat ->
  exists max_rms,
    In max_rms (map calculate_rms (spec_blocks recording))
    /\ Forall (fun r => r <= max_rms) (map calculate_rms (spec_blocks recording))
    /\ calibrate_recording_with multiplier recording
       = Returns (Rmax (max_rms * multiplier) min_threshold).
Proof.
  intros Hlen. unfold calibrate_recording_with.
  rewrite (np_split_truncated recording Hlen). cbn [bind].
  pose proof (spec_blocks_nonempty recording Hlen) as Hne.
  destruct (spec_blocks recording) as [|b bs]; [congruence|].
  cbn [map np_max bind].
  destruct (fold_left_Rmax_greatest (map calculate_rms bs) (calculate_rms b))
    as [Hin Hall].
  eexists. split; [exact Hin|]. split; [exact Hall|].
  now rewrite py_max_Rmax.
Qed.

Lemma calibrate_recording_with_short (multiplier : R) (recording : samples) :
  (length recording < BLOCK_SIZE)%nat ->
  calibrate_recording_with multiplier recording = Raises ZeroDivisionError.
Proof.
  intros Hlen. unfold calibrate_recording_with.
  rewrite (Nat.div_small _ _ Hlen). reflexivity.
Qed.

Lemma Rmax_scale_mono (r m1 m2 f : R) :
  0 <= r -> m1 <= m2 -> Rmax (r * m1) f <= Rmax (r * m2) f.
Proof.
  intros Hr Hm.
  apply Rmax_lub.
  - apply Rle_trans with (r * m2); [nra|apply Rmax_l].
  - apply Rmax_r.
Qed.

Lemma spec_blocks_incl (recording b : samples) (x : R) :
  In b (spec_blocks recording) -> In x b -> In x recording.
Proof.
  unfold spec_blocks. intros Hb Hx.
  apply in_map_iff in Hb. destruct Hb as [i [<- _]].
  set (tl := skipn (i * BLOCK_SIZE) recording) in *.
  assert (Htl : In x tl).
  { rewrite <- (firstn_skipn BLOCK_SIZE tl). apply in_or_app. now left. }
  unfold tl in Htl.
  rewrite <- (firstn_skipn (i * BLOCK_SIZE) recording). apply in_or_app. now right.
Qed.

(** Calibrating on a recording of constant magnitude. *)
Lemma calibrate_recording_with_constant (multiplier c : R) (n : nat) :
  (BLOCK_SIZE <= n)%nat ->
  calibrate_recording_with multiplier (repeat c n)
  = Returns (Rmax (Rabs c * multiplier) min_threshold).
Proof.
  intros Hn.
  assert (Hlen : (BLOCK_SIZE <= length (repeat c n))%nat)
    by now rewrite repeat_length.
  destruct (calibrate_recording_with_value multiplier _ Hlen)
    as [max_rms [Hin [_ ->]]].
  apply in_map_iff in Hin. destruct Hin as [b [<- Hb]].
  do 2 f_equal. f_equal.
  apply calculate_rms_const.
  - pose proof (spec_blocks_length (repeat c n)) as Hall.
    rewrite Forall_forall in Hall. specialize (Hall b Hb).
    pose proof BLOCK_SIZE_pos. intros ->. cbn [length] in Hall. lia.
  - apply Forall_forall. intros x Hx.
    apply (spec_blocks_incl _ _ _ Hb) in Hx. apply repeat_spec in Hx. now subst.
Qed.

(** [int] keeps the comparison with a positive whole number. *)
Lemma py_int_ge (n : nat) (x : R) :
  (0 < n)%nat -> (Z.of_nat n <= py_int x)%Z <-> INR n <= x.
Proof.
  intros Hn. rewrite INR_IZR_INZ. unfold py_int.
  assert (Hn' : 1 <= IZR (Z.of_nat n)) by (apply IZR_le; lia).
  destruct (Rle_dec 0 x) as [Hx|Hx].
  - destruct (base_Int_part x) as [Hlo Hhi]. split; intros H.
    + apply IZR_le in H. lra.
    + assert (Hlt : IZR (Z.of_nat n) < IZR (Int_part x + 1)).
      { rewrite plus_IZR. lra. }
      apply lt_IZR in Hlt. lia.
  - destruct (base_Int_part (- x)) as [Hlo Hhi]. split; intros H.
    + assert (Hlt : IZR (-1) < IZR (Int_part (- x))) by lra.
      apply lt_IZR in Hlt. lia.
    + lra.
Qed.

Lemma py_int_IZR (z : Z) : py_int (IZR z) = z.
Proof.
  unfold py_int. destruct (Rle_dec 0 (IZR z)) as [Hz|Hz].
  - symmetry. apply Int_part_spec. lra.
  - rewrite <- opp_IZR. rewrite <- (Int_part_spec (IZR (- z)) (- z)); [lia|lra].
Qed.

(** ** The claims about the calibration *)

(** C4: when the capture hands back a recording (of at least one full
    block), [calibrate_noise] cuts it into blocks of [BLOCK_SIZE] samples,
    dropping the incomplete rest, and returns the greatest block RMS times
    the multiplier, or the floor [min_threshold] when that is greater. *)
Theorem calibrate_noise_threshold
  (sd_rec : Z -> outcome samples) (duration : R) (recording : samples) :
  sd_rec (py_int (duration * IZR SAMPLE_RATE)) = Returns recording ->
  (BLOCK_SIZE <= length recording)%nat ->
  let blocks := spec_blocks recording in
  Forall (fun b => length b = BLOCK_SIZE) blocks
  /\ (exists rest, recording = concat blocks ++ rest
                   /\ (length rest < BLOCK_SIZE)%nat)
  /\ exists max_rms,
       In max_rms (map calculate_rms blocks)
       /\ Forall (fun r => r <= max_rms) (map calculate_rms blocks)
       /\ calibrate_noise sd_rec duration
          = Returns (Rmax (max_rms * SILENCE_THRESHOLD_MULTIPLIER) min_threshold).
Proof.
  intros Hrec Hlen blocks. split; [apply spec_blocks_length|]. split.
  - exists (skipn (length recording / BLOCK_SIZE * BLOCK_SIZE) recording). split.
    + unfold blocks. rewrite spec_blocks_concat. now rewrite firstn_skipn.
    + rewrite length_skipn. pose proof BLOCK_SIZE_pos as Hpos.
      pose proof (Nat.div_mod_eq (length recording) BLOCK_SIZE) as Hdm.
      pose proof (Nat.mod_upper_bound (length recording) BLOCK_SIZE) as Hub.
      nia.
  - unfold calibrate_noise, calibrate_noise_with. rewrite Hrec. cbn [bind].
    now apply calibrate_recording_with_value.
Qed.

Lemma calibrate_noise_threshold_witness :
  exists max_rms,
    In max_rms (map calculate_rms (spec_blocks (repeat 3 2048 ++ [7])))
    /\ calibrate_noise (fun _ => Returns (repeat 3 2048 ++ [7])) 2
       = Returns (Rmax (max_rms * SILENCE_THRESHOLD_MULTIPLIER) min_threshold).
Proof.
  assert (Hlen : (BLOCK_SIZE <= length (repeat 3 2048 ++ [7]))%nat).
  { rewrite length_app, repeat_length. unfold BLOCK_SIZE. cbn [length]. lia. }
  destruct (calibrate_noise_threshold
              (fun _ => Returns (repeat 3 2048 ++ [7])) 2 _ eq_refl Hlen)
    as [_ [_ [max_rms [Hin [_ Heq]]]]].
  exists max_rms. split; [exact Hin|exact Heq].
Defined.

(** C5: for a fixed recording the threshold does not decrease when the
    multiplier grows, and it is never below the floor [min_threshold]. *)
Theorem calibrate_noise_monotone_in_multiplier
  (sd_rec : Z -> outcome samples) (duration : R) (recording : samples)
  (m1 m2 : R) :
  sd_rec (py_int (duration * IZR SAMPLE_RATE)) = Returns recording ->
  (BLOCK_SIZE <= length recording)%nat ->
  m1 <= m2 ->
  exists t1 t2,
    calibrate_noise_with sd_rec m1 duration = Returns t1
    /\ calibrate_noise_with sd_rec m2 duration = Returns t2
    /\ min_threshold <= t1
    /\ t1 <= t2.
Proof.
  intros Hrec Hlen Hm. unfold calibrate_noise_with. rewrite Hrec. cbn [bind].
  destruct (calibrate_recording_with_value m1 recording Hlen)
    as [r1 [Hin1 [Hall1 ->]]].
  destruct (calibrate_recording_with_value m2 recording Hlen)
    as [r2 [Hin2 [Hall2 ->]]].
  assert (Heq : r1 = r2).
  { rewrite Forall_forall in Hall1, Hall2.
    apply Rle_antisym; [now apply Hall2|now apply Hall1]. }
  subst r2.
  assert (Hpos : 0 <= r1).
  { apply in_map_iff in Hin1. destruct Hin1 as [b [<- _]].
    apply calculate_rms_nonneg. }
  do 2 eexists. split; [reflexivity|]. split; [reflexivity|]. split.
  - apply Rmax_r.
  - now apply Rmax_scale_mono.
Qed.

Lemma calibrate_noise_monotone_in_multiplier_witness :
  exists t1 t2,
    calibrate_noise_with (fun _ => Returns (repeat (1 / 100) 1024)) 2 2 = Returns t1
    /\ calibrate_noise_with (fun _ => Returns (repeat (1 / 100) 1024)) 3 2 = Returns t2
    /\ min_threshold <= t1
    /\ t1 <= t2.
Proof.
  apply (calibrate_noise_monotone_in_multiplier
           (fun _ => Returns (repeat (1 / 100) 1024)) 2 (repeat (1 / 100) 1024) 2 3).
  - reflexivity.
  - rewrite repeat_length. unfold BLOCK_SIZE. lia.
  - lra.
Defined.

(** C10: with a capture that hands back the frames asked for, the
    calibration returns a threshold exactly when the recording holds a full
    block, that is when [duration * SAMPLE_RATE >= BLOCK_SIZE]; on a shorter
    recording the split into zero blocks raises [ZeroDivisionError]. *)
Theorem calibrate_noise_needs_one_block
  (sd_rec : Z -> outcome samples) (multiplier duration : R)
  (recording : samples) :
  sd_rec (py_int (duration * IZR SAMPLE_RATE)) = Returns recording ->
  Z.of_nat (length recording) = py_int (duration * IZR SAMPLE_RATE) ->
  (INR BLOCK_SIZE <= duration * IZR SAMPLE_RATE
   <-> (1 <= length recording / BLOCK_SIZE)%nat)
  /\ ((1 <= length recording / BLOCK_SIZE)%nat ->
      exists threshold,
        calibrate_noise_with sd_rec multiplier duration = Returns threshold)
  /\ ((length recording / BLOCK_SIZE = 0)%nat ->
      calibrate_noise_with sd_rec multiplier duration = Raises ZeroDivisionError).
Proof.
  intros Hrec Hframes. pose proof BLOCK_SIZE_pos as Hpos.
  assert (Hblk : (1 <= length recording / BLOCK_SIZE)%nat
                 <-> (BLOCK_SIZE <= length recording)%nat).
  { split; intros H.
    - destruct (Nat.lt_ge_cases (length recording) BLOCK_SIZE) as [Hlt|Hge];
        [|exact Hge].
      rewrite (Nat.div_small _ _ Hlt) in H. lia.
    - apply Nat.div_str_pos. lia. }
  split; [|split].
  - rewrite <- (py_int_ge BLOCK_SIZE _ Hpos), <- Hframes, Hblk. lia.
  - intros H. apply Hblk in H.
    unfold calibrate_noise_with. rewrite Hrec. cbn [bind].
    destruct (calibrate_recording_with_value multiplier recording H)
      as [r [_ [_ ->]]].
    eexists. reflexivity.
  - intros H. unfold calibrate_noise_with. rewrite Hrec. cbn [bind].
    apply calibrate_recording_with_short.
    apply Nat.div_small_iff in H; lia.
Qed.

Lemma calibrate_noise_needs_one_block_witness :
  calibrate_noise_with (fun frames => Returns (repeat 0 (Z.to_nat frames)))
                       2 (1 / 1000)
  = Raises ZeroDivisionError.
Proof.
  assert (H16 : 1 / 1000 * IZR SAMPLE_RATE = IZR 16).
  { unfold SAMPLE_RATE. lra. }
  apply (proj2 (proj2 (calibrate_noise_needs_one_block
                         (fun frames => Returns (repeat 0 (Z.to_nat frames)))
                         2 (1 / 1000) (repeat 0 16)
                         ltac:(rewrite H16, py_int_IZR; reflexivity)
                         ltac:(rewrite H16, py_int_IZR; reflexivity)))).
  reflexivity.
Defined.

(** C3 (as the code has it): a failure of the capture is passed on to the
    caller unchanged, whatever its class, and a threshold is returned only
    when the capture handed back a recording (of at least one full block). *)
Theorem calibrate_noise_propagates_capture_failure
  (sd_rec : Z -> outcome samples) (duration : R) :
  (forall e, sd_rec (py_int (duration * IZR SAMPLE_RATE)) = Raises e ->
             calibrate_noise sd_rec duration = Raises e)
  /\ (forall threshold,
        calibrate_noise sd_rec duration = Returns threshold ->
        exists recording,
          sd_rec (py_int (duration * IZR SAMPLE_RATE)) = Returns recording
          /\ (BLOCK_SIZE <= length recording)%nat).
Proof.
  unfold calibrate_noise, calibrate_noise_with. split.
  - intros e ->. reflexivity.
  - intros threshold H.
    destruct (sd_rec (py_int (duration * IZR SAMPLE_RATE))) as [recording|e];
      cbn [bind] in H; [|discriminate].
    exists recording. split; [reflexivity|].
    destruct (Nat.lt_ge_cases (length recording) BLOCK_SIZE) as [Hlt|Hge];
      [|exact Hge].
    rewrite (calibrate_recording_with_short _ _ Hlt) in H. discriminate.
Qed.

Lemma calibrate_noise_propagates_capture_failure_witness :
  calibrate_noise (fun _ => Raises (PortAudioError "Error opening InputStream")) 2
  = Raises (PortAudioError "Error opening InputStream").
Proof.
  apply (proj1 (calibrate_noise_propagates_capture_failure
                  (fun _ => Raises (PortAudioError "Error opening InputStream")) 2)).
  reflexivity.
Defined.

(** C3 as stated fails: when the capture raises the audio library's
    [PortAudioError], that exception reaches the caller; no
    [CalibrationIOError] is raised. *)
Lemma capture_failure_is_not_CalibrationIOError :
  let sd_rec := fun _ : Z => Raises (PortAudioError "Error opening InputStream") in
  sd_rec (py_int (2 * IZR SAMPLE_RATE))
  = Raises (PortAudioError "Error opening InputStream")
  /\ calibrate_noise sd_rec 2
     = Raises (PortAudioError "Error opening InputStream")
  /\ forall msg, calibrate_noise sd_rec 2 <> Raises (CalibrationIOError msg).
Proof.
  cbv zeta. split; [reflexivity|]. split; [reflexivity|].
  intros msg H. unfold calibrate_noise, calibrate_noise_with in H.
  cbn [bind] in H. discriminate H.
Qed.

(** ** Facts about the capture loop *)

Lemma machine_fields (st : CaptureState) b r t q :
  machine st = (b, r, t, q) ->
  audio_buffer st = b /\ is_recording st = r
  /\ silence_start_time st = t /\ transcription_queue st = q.
Proof. unfold machine. intros H. inversion H. auto. Qed.

Lemma segments_closed_print (l : line) (st : CaptureState) :
  segments_closed (print l st)
  = (segments_closed st
     + if line_eq_dec l end_of_speech_line then 1 else 0)%nat.
Proof.
  unfold segments_closed, print. cbn [console].
  rewrite count_occ_app. cbn [count_occ].
  now destruct (line_eq_dec l end_of_speech_line).
Qed.

Lemma segments_closed_report_overflow (tk : Tick) (st : CaptureState) :
  segments_closed (report_overflow tk st) = segments_closed st.
Proof.
  unfold report_overflow. destruct (overflowed tk); [|reflexivity].
  rewrite segments_closed_print.
  destruct (line_eq_dec overflow_line end_of_speech_line) as [E|_];
    [discriminate E|lia].
Qed.

Lemma machine_report_overflow (tk : Tick) (st : CaptureState) :
  machine (report_overflow tk st) = machine st.
Proof. unfold report_overflow. now destruct (overflowed tk). Qed.

Lemma close_segment_machine (st : CaptureState) :
  machine (close_segment st)
  = ([], false, None,
     transcription_queue st ++ dispatched (concat (audio_buffer st)))
  /\ segments_closed (close_segment st) = S (segments_closed st).
Proof.
  unfold close_segment, dispatched. cbn [print audio_buffer].
  destruct (Rge_dec (INR (length (concat (audio_buffer st))) / IZR SAMPLE_RATE)
                    MIN_RECORDING_DURATION) as [Hlong|Hshort].
  - split; [reflexivity|].
    unfold segments_closed.
    cbn [console print queue_put set_is_recording set_audio_buffer
         set_silence_start_time].
    rewrite !count_occ_app. cbn [count_occ].
    destruct (line_eq_dec end_of_speech_line end_of_speech_line) as [_|E];
      [|congruence].
    destruct (line_eq_dec listening_line end_of_speech_line) as [E|_];
      [discriminate E|lia].
  - split.
    + unfold machine.
      cbn [transcription_queue audio_buffer is_recording silence_start_time
           print set_is_recording set_audio_buffer set_silence_start_time].
      now rewrite app_nil_r.
    + unfold segments_closed.
      cbn [console print queue_put set_is_recording set_audio_buffer
           set_silence_start_time].
      rewrite !count_occ_app. cbn [count_occ].
      destruct (line_eq_dec end_of_speech_line end_of_speech_line) as [_|E];
        [|congruence].
      destruct (line_eq_dec too_short_line end_of_speech_line) as [E|_];
        [discriminate E|].
      destruct (line_eq_dec listening_line end_of_speech_line) as [E|_];
        [discriminate E|lia].
Qed.

(** A block louder than the threshold. *)
Lemma loop_iteration_loud (threshold : R) (st : CaptureState) (tk : Tick) :
  calculate_rms (indata tk) > threshold ->
  machine (loop_iteration threshold st tk)
  = ((if is_recording st then audio_buffer st else []) ++ [indata tk],
     true, None, transcription_queue st)
  /\ segments_closed (loop_iteration threshold st tk) = segments_closed st.
Proof.
  intros Hloud. unfold loop_iteration.
  destruct (Rgt_dec (calculate_rms (indata tk)) threshold) as [_|Hn];
    [|contradiction].
  pose proof (machine_report_overflow tk st) as Hm.
  pose proof (segments_closed_report_overflow tk st) as Hc.
  destruct (report_overflow tk st) as [b r t q c].
  apply eq_sym, machine_fields in Hm. cbn in Hm.
  destruct Hm as [<- [<- [_ <-]]].
  cbn [is_recording]. destruct (is_recording st); cbn [negb].
  - split; [reflexivity|exact Hc].
  - split; [reflexivity|]. rewrite <- Hc.
    unfold segments_closed.
    cbn [console print set_is_recording set_audio_buffer buffer_append
         set_silence_start_time].
    rewrite count_occ_app. cbn [count_occ].
    destruct (line_eq_dec speech_line end_of_speech_line) as [E|_];
      [discriminate E|lia].
Qed.

(** A quiet block while idle. *)
Lemma loop_iteration_quiet_idle (threshold : R) (st : CaptureState) (tk : Tick) :
  calculate_rms (indata tk) <= threshold ->
  is_recording st = false ->
  machine (loop_iteration threshold st tk) = machine st
  /\ segments_closed (loop_iteration threshold st tk) = segments_closed st.
Proof.
  intros Hquiet Hidle. unfold loop_iteration.
  destruct (Rgt_dec (calculate_rms (indata tk)) threshold) as [Hn|_]; [lra|].
  pose proof (machine_report_overflow tk st) as Hm.
  pose proof (segments_closed_report_overflow tk st) as Hc.
  destruct (machine_fields _ _ _ _ _ Hm) as [_ [Hr _]].
  rewrite Hr, Hidle. now split.
Qed.

(** A quiet block while recording, before the silence has lasted long enough. *)
Lemma loop_iteration_quiet_open (threshold : R) (st : CaptureState) (tk : Tick) :
  is_recording st = true ->
  calculate_rms (indata tk) <= threshold ->
  clock_check tk - silence_started st tk <= SILENCE_DURATION ->
  machine (loop_iteration threshold st tk)
  = (audio_buffer st ++ [indata tk], true, Some (silence_started st tk),
     transcription_queue st)
  /\ segments_closed (loop_iteration threshold st tk) = segments_closed st.
Proof.
  intros Hrec Hquiet Hopen. unfold loop_iteration.
  destruct (Rgt_dec (calculate_rms (indata tk)) threshold) as [Hn|_]; [lra|].
  pose proof (machine_report_overflow tk st) as Hm.
  pose proof (segments_closed_report_overflow tk st) as Hc.
  unfold silence_started in *.
  destruct (report_overflow tk st) as [b r t q c].
  apply eq_sym, machine_fields in Hm. cbn in Hm.
  destruct Hm as [<- [Hr [<- <-]]]. rewrite Hrec in Hr. subst r.
  cbn [is_recording buffer_append set_audio_buffer silence_start_time
       audio_buffer transcription_queue console] in *.
  match goal with
  | |- context [Rgt_dec ?a SILENCE_DURATION] =>
      destruct (Rgt_dec a SILENCE_DURATION) as [Hn|_]; [lra|]
  end.
  split; [reflexivity|exact Hc].
Qed.

(** A quiet block while recording, once the silence has lasted long enough. *)
Lemma loop_iteration_quiet_close (threshold : R) (st : CaptureState) (tk : Tick) :
  is_recording st = true ->
  calculate_rms (indata tk) <= threshold ->
  clock_check tk - silence_started st tk > SILENCE_DURATION ->
  machine (loop_iteration threshold st tk)
  = ([], false, None,
     transcription_queue st
     ++ dispatched (concat (audio_buffer st ++ [indata tk])))
  /\ segments_closed (loop_iteration threshold st tk) = S (segments_closed st).
Proof.
  intros Hrec Hquiet Hclose. unfold loop_iteration.
  destruct (Rgt_dec (calculate_rms (indata tk)) threshold) as [Hn|_]; [lra|].
  pose proof (machine_report_overflow tk st) as Hm.
  pose proof (segments_closed_report_overflow tk st) as Hc.
  unfold silence_started in *.
  destruct (report_overflow tk st) as [b r t q c].
  apply eq_sym, machine_fields in Hm. cbn in Hm.
  destruct Hm as [<- [Hr [<- <-]]]. rewrite Hrec in Hr. subst r.
  cbn [is_recording buffer_append set_audio_buffer silence_start_time
       audio_buffer transcription_queue console] in *.
  match goal with
  | |- context [Rgt_dec ?a SILENCE_DURATION] =>
      destruct (Rgt_dec a SILENCE_DURATION) as [_|Hn]; [|contradiction]
  end.
  match goal with
  | |- context [close_segment ?s] =>
      destruct (close_segment_machine s) as [Hcm Hcc]
  end.
  rewrite Hcm, Hcc. split; [reflexivity|].
  f_equal. exact Hc.
Qed.

Lemma capture_loop_cons (threshold : R) (st : CaptureState) tk ticks :
  capture_loop threshold st (tk :: ticks)
  = capture_loop threshold (loop_iteration threshold st tk) ticks.
Proof. reflexivity. Qed.

Lemma capture_loop_app (threshold : R) (st : CaptureState) ticks1 ticks2 :
  capture_loop threshold st (ticks1 ++ ticks2)
  = capture_loop threshold (capture_loop threshold st ticks1) ticks2.
Proof. unfold capture_loop. apply fold_left_app. Qed.

(** A run of loud blocks: all of them are buffered, the recording is on and
    the silence timer is unset. *)
Lemma capture_loop_loud (threshold : R) (speech : list Tick) :
  forall st,
    speech <> [] ->
    Forall (fun tk => calculate_rms (indata tk) > threshold) speech ->
    machine (capture_loop threshold st speech)
    = ((if is_recording st then audio_buffer st else []) ++ map indata speech,
       true, None, transcription_queue st)
    /\ segments_closed (capture_loop threshold st speech) = segments_closed st.
Proof.
  induction speech as [|tk rest IH]; intros st Hne Hall; [congruence|].
  inversion Hall as [|? ? Hloud Hrest]; subst.
  destruct (loop_iteration_loud threshold st tk Hloud) as [Hm Hc].
  rewrite capture_loop_cons.
  destruct rest as [|tk2 rest].
  - cbn [capture_loop fold_left map]. now split.
  - destruct (IH (loop_iteration threshold st tk) ltac:(discriminate) Hrest)
      as [Hm' Hc'].
    destruct (machine_fields _ _ _ _ _ Hm) as [Hb [Hr [_ Hq]]].
    rewrite Hm', Hc', Hr, Hb, Hq, Hc. split; [|reflexivity].
    cbn [map]. now rewrite <- app_assoc.
Qed.

(** A run of quiet blocks while recording, none of them late enough to end
    the segment: all of them are buffered and the timer keeps its value. *)
Lemma capture_loop_quiet_open (threshold t0 : R) (silence : list Tick) :
  forall st,
    is_recording st = true ->
    silence_start_time st = Some t0 ->
    Forall (fun tk => calculate_rms (indata tk) <= threshold) silence ->
    Forall (fun tk => clock_check tk - t0 <= SILENCE_DURATION) silence ->
    machine (capture_loop threshold st silence)
    = (audio_buffer st ++ map indata silence, true, Some t0,
       transcription_queue st)
    /\ segments_closed (capture_loop threshold st silence) = segments_closed st.
Proof.
  induction silence as [|tk rest IH]; intros st Hrec Htimer Hquiet Hopen.
  - cbn [capture_loop fold_left map]. rewrite app_nil_r. unfold machine.
    now rewrite Hrec, Htimer.
  - inversion Hquiet as [|? ? Hq1 Hq]; subst.
    inversion Hopen as [|? ? Ho1 Ho]; subst.
    assert (Hst : silence_started st tk = t0)
      by (unfold silence_started; now rewrite Htimer).
    destruct (loop_iteration_quiet_open threshold st tk Hrec Hq1
                ltac:(now rewrite Hst)) as [Hm Hc].
    rewrite Hst in Hm.
    destruct (machine_fields _ _ _ _ _ Hm) as [Hb [Hr [Ht Hqueue]]].
    destruct (IH (loop_iteration threshold st tk) Hr Ht Hq Ho) as [Hm' Hc'].
    rewrite capture_loop_cons, Hm', Hc', Hb, Hqueue, Hc. split; [|reflexivity].
    cbn [map]. now rewrite <- app_assoc.
Qed.

(** Speech from the idle state, then silence whose last block is the first
    one late enough: one segment is closed, made of all the blocks. *)
Lemma capture_loop_speech_then_silence
  (threshold : R) (st : CaptureState) (speech silence : list Tick) (last : Tick) :
  is_recording st = false ->
  speech <> [] ->
  Forall (fun tk => calculate_rms (indata tk) > threshold) speech ->
  Forall (fun tk => calculate_rms (indata tk) <= threshold) (silence ++ [last]) ->
  Forall (fun tk => clock_check tk - clock_start (hd last silence)
                    <= SILENCE_DURATION) silence ->
  clock_check last - clock_start (hd last silence) > SILENCE_DURATION ->
  segments_closed (capture_loop threshold st (speech ++ silence ++ [last]))
  = S (segments_closed st)
  /\ machine (capture_loop threshold st (speech ++ silence ++ [last]))
     = ([], false, None,
        transcription_queue st
        ++ dispatched (concat (map indata (speech ++ silence ++ [last])))).
Proof.
  intros Hidle Hne Hloud Hquiet Hopen Hclose.
  rewrite capture_loop_app.
  destruct (capture_loop_loud threshold speech st Hne Hloud) as [Hm1 Hc1].
  rewrite Hidle in Hm1. cbn [app] in Hm1.
  destruct (machine_fields _ _ _ _ _ Hm1) as [Hb1 [Hr1 [Ht1 Hq1]]].
  set (st1 := capture_loop threshold st speech) in *.
  apply Forall_app in Hquiet. destruct Hquiet as [Hquiet Hlast].
  inversion Hlast as [|? ? Hqlast _]; subst.
  rewrite !map_app. cbn [map].
  destruct silence as [|tk rest].
  - cbn [app hd map] in *. rewrite capture_loop_cons.
    cbn [capture_loop fold_left].
    assert (Hst : silence_started st1 last = clock_start last)
      by (unfold silence_started; now rewrite Ht1).
    destruct (loop_iteration_quiet_close threshold st1 last Hr1 Hqlast
                ltac:(now rewrite Hst)) as [Hm Hc].
    rewrite Hm, Hc, Hc1, Hb1, Hq1. now split.
  - cbn [hd] in *.
    inversion Hquiet as [|? ? Hqtk Hqrest]; subst.
    inversion Hopen as [|? ? Hotk Horest]; subst.
    assert (Hst : silence_started st1 tk = clock_start tk)
      by (unfold silence_started; now rewrite Ht1).
    destruct (loop_iteration_quiet_open threshold st1 tk Hr1 Hqtk
                ltac:(now rewrite Hst)) as [Hm2 Hc2].
    rewrite Hst in Hm2.
    destruct (machine_fields _ _ _ _ _ Hm2) as [Hb2 [Hr2 [Ht2 Hq2]]].
    set (st2 := loop_iteration threshold st1 tk) in *.
    destruct (capture_loop_quiet_open threshold (clock_start tk) rest st2
                Hr2 Ht2 Hqrest Horest) as [Hm3 Hc3].
    destruct (machine_fields _ _ _ _ _ Hm3) as [Hb3 [Hr3 [Ht3 Hq3]]].
    set (st3 := capture_loop threshold st2 rest) in *.
    assert (Hst3 : silence_started st3 last = clock_start tk)
      by (unfold silence_started; now rewrite Ht3).
    destruct (loop_iteration_quiet_close threshold st3 last Hr3 Hqlast
                ltac:(now rewrite Hst3)) as [Hm Hc].
    change ((tk :: rest) ++ [last]) with (tk :: (rest ++ [last])).
    rewrite capture_loop_cons. fold st2.
    rewrite capture_loop_app. fold st3.
    cbn [capture_loop fold_left].
    rewrite Hm, Hc, Hc3, Hc2, Hc1, Hb3, Hq3, Hb2, Hq2, Hb1, Hq1.
    split; [reflexivity|].
    cbn [map app]. do 3 f_equal.
    rewrite <- !app_assoc. reflexivity.
Qed.

(** What an iteration does to the machine does not depend on the console or
    on the overflow flag; the flag adds the warning line, printed first. *)
Ltac eval_setters :=
  cbv beta iota zeta delta
      [set_silence_start_time buffer_append set_audio_buffer set_is_recording
       queue_put print audio_buffer is_recording silence_start_time
       transcription_queue console negb].

Lemma report_overflow_record b r t q c d ov s k :
  report_overflow (mkTick d ov s k) (mkCapture b r t q c)
  = mkCapture b r t q (c ++ (if ov then [overflow_line] else [])).
Proof.
  unfold report_overflow. cbn [overflowed].
  destruct ov; [reflexivity|]. now rewrite app_nil_r.
Qed.

Lemma close_segment_long b r t q c :
  long_enough (concat b) ->
  close_segment (mkCapture b r t q c)
  = mkCapture [] false None (q ++ [Some (concat b)])
      (c ++ [end_of_speech_line; listening_line]).
Proof.
  unfold long_enough. intros Hlong.
  unfold close_segment. cbv zeta. cbn [print audio_buffer].
  destruct (Rge_dec (INR (length (concat b)) / IZR SAMPLE_RATE)
                    MIN_RECORDING_DURATION) as [_|Hn]; [|contradiction].
  eval_setters. now rewrite <- app_assoc.
Qed.

Lemma close_segment_short b r t q c :
  ~ long_enough (concat b) ->
  close_segment (mkCapture b r t q c)
  = mkCapture [] false None q
      (c ++ [end_of_speech_line; too_short_line; listening_line]).
Proof.
  unfold long_enough. intros Hshort.
  unfold close_segment. cbv zeta. cbn [print audio_buffer].
  destruct (Rge_dec (INR (length (concat b)) / IZR SAMPLE_RATE)
                    MIN_RECORDING_DURATION) as [Hn|_]; [contradiction|].
  eval_setters. now rewrite <- !app_assoc.
Qed.

Ltac start_iteration :=
  unfold loop_iteration; cbv zeta; rewrite !report_overflow_record;
  cbn [indata clock_start clock_check is_recording negb].

Lemma loop_iteration_shape (threshold : R) b r t q d s k :
  exists b' r' t' q' printed,
    ~ In overflow_line printed
    /\ forall c ov,
         loop_iteration threshold (mkCapture b r t q c) (mkTick d ov s k)
         = mkCapture b' r' t' q'
             (c ++ (if ov then [overflow_line] else []) ++ printed).
Proof.
  destruct (Rgt_dec (calculate_rms d) threshold) as [Hloud|Hquiet].
  - destruct r.
    + exists (b ++ [d]), true, None, q, []. split; [intros []|].
      intros c ov. start_iteration.
      destruct (Rgt_dec (calculate_rms d) threshold); [|contradiction].
      eval_setters. now rewrite app_nil_r.
    + exists [d], true, None, q, [speech_line]. split.
      * intros [E|[]]. discriminate E.
      * intros c ov. start_iteration.
        destruct (Rgt_dec (calculate_rms d) threshold); [|contradiction].
        eval_setters. now rewrite <- app_assoc.
  - destruct r.
    + set (started := match t with None => s | Some t0 => t0 end).
      destruct (Rgt_dec (k - started) SILENCE_DURATION) as [Hclose|Hopen].
      * destruct (Rge_dec (INR (length (concat (b ++ [d]))) / IZR SAMPLE_RATE)
                          MIN_RECORDING_DURATION) as [Hlong|Hshort].
        -- exists [], false, None, (q ++ [Some (concat (b ++ [d]))]),
                  [end_of_speech_line; listening_line]. split.
           ++ intros [E|[E|[]]]; discriminate E.
           ++ intros c ov. start_iteration.
              destruct (Rgt_dec (calculate_rms d) threshold); [contradiction|].
              eval_setters. fold started.
              destruct (Rgt_dec (k - started) SILENCE_DURATION);
                [|contradiction].
              rewrite close_segment_long by exact Hlong.
              now rewrite <- app_assoc.
        -- exists [], false, None, q,
                  [end_of_speech_line; too_short_line; listening_line]. split.
           ++ intros [E|[E|[E|[]]]]; discriminate E.
           ++ intros c ov. start_iteration.
              destruct (Rgt_dec (calculate_rms d) threshold); [contradiction|].
              eval_setters. fold started.
              destruct (Rgt_dec (k - started) SILENCE_DURATION);
                [|contradiction].
              rewrite close_segment_short by exact Hshort.
              now rewrite <- app_assoc.
      * exists (b ++ [d]), true, (Some started), q, []. split; [intros []|].
        intros c ov. start_iteration.
        destruct (Rgt_dec (calculate_rms d) threshold); [contradiction|].
        eval_setters. fold started.
        destruct (Rgt_dec (k - started) SILENCE_DURATION); [contradiction|].
        now rewrite app_nil_r.
    + exists b, false, t, q, []. split; [intros []|].
      intros c ov. start_iteration.
      destruct (Rgt_dec (calculate_rms d) threshold); [contradiction|].
      now rewrite app_nil_r.
Qed.

Lemma loop_iteration_machine_congr (threshold : R) (st st' : CaptureState) tk :
  machine st = machine st' ->
  machine (loop_iteration threshold st tk)
  = machine (loop_iteration threshold st' (without_overflow tk)).
Proof.
  destruct st as [b r t q c], st' as [b' r' t' q' c'], tk as [d ov s k].
  unfold machine at 1 2. cbn. intros H. inversion H; subst.
  destruct (loop_iteration_shape threshold b' r' t' q' d s k)
    as [b2 [r2 [t2 [q2 [printed [_ Hstep]]]]]].
  unfold without_overflow. cbn [indata clock_start clock_check].
  now rewrite !Hstep.
Qed.

Lemma loop_iteration_overflow_reports (threshold : R) (st : CaptureState) tk :
  overflow_reports (loop_iteration threshold st tk)
  = (overflow_reports st + if overflowed tk then 1 else 0)%nat.
Proof.
  destruct st as [b r t q c], tk as [d ov s k].
  destruct (loop_iteration_shape threshold b r t q d s k)
    as [b2 [r2 [t2 [q2 [printed [Hnone Hstep]]]]]].
  rewrite Hstep. unfold overflow_reports. cbn [console overflowed].
  rewrite !count_occ_app.
  rewrite (proj1 (count_occ_not_In line_eq_dec printed overflow_line) Hnone).
  destruct ov; cbn [count_occ].
  - destruct (line_eq_dec overflow_line overflow_line); [lia|congruence].
  - lia.
Qed.

Lemma capture_loop_machine_congr (threshold : R) (ticks : list Tick) :
  forall st st',
    machine st = machine st' ->
    machine (capture_loop threshold st ticks)
    = machine (capture_loop threshold st' (map without_overflow ticks)).
Proof.
  induction ticks as [|tk rest IH]; intros st st' H; [exact H|].
  cbn [map]. rewrite !capture_loop_cons. apply IH.
  now apply loop_iteration_machine_congr.
Qed.

Lemma capture_loop_overflow_reports (threshold : R) (ticks : list Tick) :
  forall st,
    overflow_reports (capture_loop threshold st ticks)
    = (overflow_reports st + length (filter overflowed ticks))%nat.
Proof.
  induction ticks as [|tk rest IH]; intros st.
  - cbn [capture_loop fold_left filter length]. lia.
  - rewrite capture_loop_cons, IH, loop_iteration_overflow_reports.
    cbn [filter]. destruct (overflowed tk); cbn [length]; lia.
Qed.

Lemma INR_BLOCK_SIZE : INR BLOCK_SIZE = 1024.
Proof. unfold BLOCK_SIZE. rewrite INR_IZR_INZ. reflexivity. Qed.

Ltac rms_of_repeat :=
  rewrite ?calculate_rms_repeat by (unfold BLOCK_SIZE; lia);
  rewrite ?Rabs_R1, ?Rabs_R0.

(** The loop only ever puts segments on the queue, never the sentinel. *)
Lemma loop_iteration_queue (threshold : R) (st : CaptureState) (tk : Tick) :
  exists added,
    transcription_queue (loop_iteration threshold st tk)
    = transcription_queue st ++ map Some added.
Proof.
  destruct (Rgt_dec (calculate_rms (indata tk)) threshold) as [Hloud|Hquiet].
  - destruct (loop_iteration_loud threshold st tk Hloud) as [Hm _].
    destruct (machine_fields _ _ _ _ _ Hm) as [_ [_ [_ Hq]]].
    exists []. cbn [map]. now rewrite app_nil_r.
  - assert (Hle : calculate_rms (indata tk) <= threshold) by lra.
    destruct (is_recording st) eqn:Hrec.
    + destruct (Rgt_dec (clock_check tk - silence_started st tk)
                        SILENCE_DURATION) as [Hclose|Hopen].
      * destruct (loop_iteration_quiet_close threshold st tk Hrec Hle Hclose)
          as [Hm _].
        destruct (machine_fields _ _ _ _ _ Hm) as [_ [_ [_ Hq]]].
        rewrite Hq. unfold dispatched.
        destruct (Rge_dec _ _).
        -- now exists [concat (audio_buffer st ++ [indata tk])].
        -- now exists [].
      * assert (Hle2 : clock_check tk - silence_started st tk
                       <= SILENCE_DURATION) by lra.
        destruct (loop_iteration_quiet_open threshold st tk Hrec Hle Hle2)
          as [Hm _].
        destruct (machine_fields _ _ _ _ _ Hm) as [_ [_ [_ Hq]]].
        exists []. cbn [map]. now rewrite app_nil_r.
    + destruct (loop_iteration_quiet_idle threshold st tk Hle Hrec) as [Hm _].
      apply (f_equal snd) in Hm. unfold machine in Hm. cbn [snd] in Hm.
      exists []. cbn [map]. now rewrite app_nil_r.
Qed.

Lemma capture_loop_queue (threshold : R) (ticks : list Tick) :
  forall st,
    exists added,
      transcription_queue (capture_loop threshold st ticks)
      = transcription_queue st ++ map Some added.
Proof.
  induction ticks as [|tk rest IH]; intros st.
  - exists []. cbn [capture_loop fold_left map]. now rewrite app_nil_r.
  - rewrite capture_loop_cons.
    destruct (IH (loop_iteration threshold st tk)) as [added2 ->].
    destruct (loop_iteration_queue threshold st tk) as [added1 ->].
    exists (added1 ++ added2). now rewrite map_app, app_assoc.
Qed.

(** ** The claims about the capture loop *)

(** C1 (as the code has it): while recording, a block whose RMS is at most
    the threshold is appended to the buffer and starts the silence timer if
    it was unset; the segment is closed exactly when the silence has lasted
    strictly longer than [SILENCE_DURATION].  So speech from the idle
    state, followed by quiet blocks of which the last is the first one read
    more than [SILENCE_DURATION] after the silence began, closes exactly one
    segment, made of all the speech blocks and all the quiet ones. *)
Theorem silence_longer_than_SILENCE_DURATION_closes_segment :
  (forall (threshold : R) (st : CaptureState) (tk : Tick),
      is_recording st = true ->
      calculate_rms (indata tk) <= threshold ->
      let st' := loop_iteration threshold st tk in
      let started := silence_started st tk in
      (clock_check tk - started > SILENCE_DURATION ->
       segments_closed st' = S (segments_closed st)
       /\ machine st'
          = ([], false, None,
             transcription_queue st
             ++ dispatched (concat (audio_buffer st ++ [indata tk]))))
      /\ (clock_check tk - started <= SILENCE_DURATION ->
          segments_closed st' = segments_closed st
          /\ machine st'
             = (audio_buffer st ++ [indata tk], true, Some started,
                transcription_queue st)))
  /\ (forall (threshold : R) (st : CaptureState)
             (speech silence : list Tick) (last : Tick),
         is_recording st = false ->
         speech <> [] ->
         Forall (fun tk => calculate_rms (indata tk) > threshold) speech ->
         Forall (fun tk => calculate_rms (indata tk) <= threshold)
                (silence ++ [last]) ->
         let started := clock_start (hd last silence) in
         Forall (fun tk => clock_check tk - started <= SILENCE_DURATION)
                silence ->
         clock_check last - started > SILENCE_DURATION ->
         let st' := capture_loop threshold st (speech ++ silence ++ [last]) in
         segments_closed st' = S (segments_closed st)
         /\ machine st'
            = ([], false, None,
               transcription_queue st
               ++ dispatched
                    (concat (map indata (speech ++ silence ++ [last]))))).
Proof.
  split.
  - intros threshold st tk Hrec Hquiet st' started. split.
    + intros Hclose.
      destruct (loop_iteration_quiet_close threshold st tk Hrec Hquiet Hclose).
      now split.
    + intros Hopen.
      destruct (loop_iteration_quiet_open threshold st tk Hrec Hquiet Hopen).
      now split.
  - intros threshold st speech silence last Hidle Hne Hloud Hquiet started
           Hopen Hclose st'.
    now apply capture_loop_speech_then_silence.
Qed.

Lemma silence_longer_than_SILENCE_DURATION_closes_segment_witness :
  let speech := mkTick (repeat 1 BLOCK_SIZE) false 0 0 in
  let quiet := fun t => mkTick (repeat 0 BLOCK_SIZE) false t t in
  let st' := capture_loop (1 / 100) initial_state
               ([speech] ++ [quiet 10] ++ [quiet 13]) in
  segments_closed st' = 1%nat
  /\ machine st'
     = ([], false, None,
        dispatched (concat (map indata ([speech] ++ [quiet 10] ++ [quiet 13])))).
Proof.
  intros speech quiet.
  apply (proj2 silence_longer_than_SILENCE_DURATION_closes_segment
           (1 / 100) initial_state [speech] [quiet 10] (quiet 13)).
  - reflexivity.
  - discriminate.
  - repeat constructor. cbn [indata speech]. rms_of_repeat. lra.
  - repeat constructor; cbn [indata quiet]; rms_of_repeat; lra.
  - repeat constructor. cbn [hd clock_check clock_start quiet].
    unfold SILENCE_DURATION. lra.
  - cbn [hd clock_check clock_start quiet]. unfold SILENCE_DURATION. lra.
Defined.

(** C1 as stated fails: after speech, quiet blocks read 10 s and 12 s into
    the run make exactly [SILENCE_DURATION] seconds of silence, and no
    segment is closed: the recording goes on. *)
Lemma silence_of_exactly_SILENCE_DURATION_closes_nothing :
  let speech := mkTick (repeat 1 BLOCK_SIZE) false 0 0 in
  let quiet := fun t => mkTick (repeat 0 BLOCK_SIZE) false t t in
  let st' := capture_loop (1 / 100) initial_state [speech; quiet 10; quiet 12] in
  12 - 10 >= SILENCE_DURATION
  /\ segments_closed st' = 0%nat
  /\ machine st'
     = ([repeat 1 BLOCK_SIZE; repeat 0 BLOCK_SIZE; repeat 0 BLOCK_SIZE],
        true, Some 10, []).
Proof.
  intros speech quiet.
  split; [unfold SILENCE_DURATION; lra|].
  change [speech; quiet 10; quiet 12] with ([speech] ++ [quiet 10; quiet 12]).
  cbv zeta. rewrite capture_loop_app.
  assert (Hloud : Forall (fun tk => calculate_rms (indata tk) > 1 / 100) [speech]).
  { repeat constructor. cbn [indata speech]. rms_of_repeat. lra. }
  destruct (capture_loop_loud (1 / 100) [speech] initial_state
              ltac:(discriminate) Hloud) as [Hm1 Hc1].
  cbn [initial_state is_recording app map indata speech transcription_queue]
    in Hm1.
  destruct (machine_fields _ _ _ _ _ Hm1) as [Hb1 [Hr1 [Ht1 Hq1]]].
  set (st1 := capture_loop (1 / 100) initial_state [speech]) in *.
  rewrite capture_loop_cons.
  assert (Hq10 : calculate_rms (indata (quiet 10)) <= 1 / 100)
    by (cbn [indata quiet]; rms_of_repeat; lra).
  assert (Hs10 : silence_started st1 (quiet 10) = 10)
    by (unfold silence_started; now rewrite Ht1).
  destruct (loop_iteration_quiet_open (1 / 100) st1 (quiet 10) Hr1 Hq10
              ltac:(rewrite Hs10; cbn [clock_check quiet];
                    unfold SILENCE_DURATION; lra)) as [Hm2 Hc2].
  rewrite Hs10, Hb1, Hq1 in Hm2.
  destruct (machine_fields _ _ _ _ _ Hm2) as [Hb2 [Hr2 [Ht2 Hq2]]].
  set (st2 := loop_iteration (1 / 100) st1 (quiet 10)) in *.
  assert (Hq12 : calculate_rms (indata (quiet 12)) <= 1 / 100)
    by (cbn [indata quiet]; rms_of_repeat; lra).
  assert (Hs12 : silence_started st2 (quiet 12) = 10)
    by (unfold silence_started; now rewrite Ht2).
  destruct (loop_iteration_quiet_open (1 / 100) st2 (quiet 12) Hr2 Hq12
              ltac:(rewrite Hs12; cbn [clock_check quiet];
                    unfold SILENCE_DURATION; lra)) as [Hm3 Hc3].
  rewrite Hs12, Hb2, Hq2 in Hm3.
  cbn [capture_loop fold_left]. split.
  - rewrite Hc3, Hc2, Hc1. reflexivity.
  - rewrite Hm3. reflexivity.
Qed.

(** C2: a segment closed by the silence timeout is put on the queue when
    its duration, samples over [SAMPLE_RATE], is at least
    [MIN_RECORDING_DURATION], and the queue is left as it was when the
    segment is shorter; either way the machine is idle afterwards, with an
    empty buffer and the silence timer unset. *)
Theorem closed_segment_enqueued_iff_long_enough
  (threshold : R) (st : CaptureState) (tk : Tick) :
  is_recording st = true ->
  calculate_rms (indata tk) <= threshold ->
  clock_check tk - silence_started st tk > SILENCE_DURATION ->
  let segment := concat (audio_buffer st ++ [indata tk]) in
  let duration := INR (length segment) / IZR SAMPLE_RATE in
  let st' := loop_iteration threshold st tk in
  (duration >= MIN_RECORDING_DURATION ->
   transcription_queue st' = transcription_queue st ++ [Some segment])
  /\ (duration < MIN_RECORDING_DURATION ->
      transcription_queue st' = transcription_queue st)
  /\ is_recording st' = false
  /\ audio_buffer st' = []
  /\ silence_start_time st' = None.
Proof.
  intros Hrec Hquiet Hclose segment duration st'.
  destruct (loop_iteration_quiet_close threshold st tk Hrec Hquiet Hclose)
    as [Hm _].
  destruct (machine_fields _ _ _ _ _ Hm) as [Hb [Hr [Ht Hq]]].
  fold st' in Hb, Hr, Ht, Hq. fold segment in Hq.
  unfold dispatched in Hq. fold duration in Hq.
  repeat split; try assumption.
  - intros Hlong. rewrite Hq.
    destruct (Rge_dec duration MIN_RECORDING_DURATION); [reflexivity|contradiction].
  - intros Hshort. rewrite Hq.
    destruct (Rge_dec duration MIN_RECORDING_DURATION); [lra|apply app_nil_r].
Qed.

Lemma closed_segment_enqueued_iff_long_enough_witness :
  let st := mkCapture [repeat 1 BLOCK_SIZE] true (Some 0) [] [] in
  let tk := mkTick (repeat 0 BLOCK_SIZE) false 3 3 in
  transcription_queue (loop_iteration (1 / 100) st tk) = [].
Proof.
  intros st tk.
  assert (Hquiet : calculate_rms (indata tk) <= 1 / 100)
    by (cbn [indata tk]; rms_of_repeat; lra).
  assert (Hclose : clock_check tk - silence_started st tk > SILENCE_DURATION)
    by (cbn; unfold SILENCE_DURATION; lra).
  apply (proj1 (proj2 (closed_segment_enqueued_iff_long_enough
                         (1 / 100) st tk eq_refl Hquiet Hclose))).
  cbn [audio_buffer st indata tk app concat].
  rewrite !length_app, !repeat_length. cbn [length].
  rewrite !plus_INR, INR_BLOCK_SIZE. cbn [INR].
  unfold SAMPLE_RATE, MIN_RECORDING_DURATION. lra.
Defined.

(** C6 (as the code has it): the overflow flag only adds the warning line.
    Over any run the buffer, the recording state, the timer and the queue
    are what they would be had no block been flagged, so a flagged block
    goes through the RMS meter and the state machine like any other; one
    warning is printed per flagged block. *)
Theorem overflow_is_reported_and_block_processed
  (threshold : R) (st : CaptureState) (ticks : list Tick) :
  machine (capture_loop threshold st ticks)
  = machine (capture_loop threshold st (map without_overflow ticks))
  /\ overflow_reports (capture_loop threshold st ticks)
     = (overflow_reports st + length (filter overflowed ticks))%nat.
Proof.
  split.
  - now apply capture_loop_machine_congr.
  - apply capture_loop_overflow_reports.
Qed.

(** C6 as stated fails: a loud block delivered with the overflow flag is
    not skipped; it starts a recording and is buffered. *)
Lemma overflowed_block_is_not_skipped :
  let tk := mkTick (repeat 1 BLOCK_SIZE) true 0 0 in
  overflowed tk = true
  /\ machine (loop_iteration (1 / 100) initial_state tk)
     = ([repeat 1 BLOCK_SIZE], true, None, [])
  /\ machine (loop_iteration (1 / 100) initial_state tk)
     <> machine initial_state.
Proof.
  intros tk. split; [reflexivity|].
  assert (Hloud : calculate_rms (indata tk) > 1 / 100)
    by (cbn [indata tk]; rms_of_repeat; lra).
  destruct (loop_iteration_loud (1 / 100) initial_state tk Hloud) as [Hm _].
  cbn [initial_state is_recording app indata tk transcription_queue] in Hm.
  split; [exact Hm|]. rewrite Hm. unfold machine, initial_state. cbn.
  discriminate.
Qed.

(** ** Facts about the transcription worker *)

Section WorkerFacts.

Variable model_transcribe : samples -> outcome string.
Variable pyperclip_copy : string -> outcome unit.
Variable pyautogui_hotkey : string -> string -> outcome unit.

Let process := process_entry model_transcribe pyperclip_copy pyautogui_hotkey.
Let worker := transcribe_worker model_transcribe pyperclip_copy pyautogui_hotkey.

Ltac worker_cases audio :=
  unfold process, process_entry, transcribe_entry, type_text, io_bind, emit,
    call, io_ret, flatten;
  destruct (model_transcribe audio) as [raw|e];
  [ destruct (strip raw) as [|ch text];
    [ | destruct (pyperclip_copy (String ch text ++ " ")) as [[]|e1];
        [ destruct (pyautogui_hotkey "command" "v") as [[]|e2] | ] ]
  | ].

Lemma process_entry_acknowledges_once (audio : samples) :
  length (filter is_task_done (process audio)) = 1%nat.
Proof. worker_cases audio; reflexivity. Qed.

Lemma process_entry_transcribes_once (audio : samples) :
  transcribed (process audio) = [audio].
Proof. worker_cases audio; reflexivity. Qed.

Lemma process_entry_raises (audio : samples) (e : PyExc) :
  model_transcribe audio = Raises e ->
  process audio
  = [Print (MsgTranscribing (INR (length audio) / IZR SAMPLE_RATE));
     Transcribe audio; Print (MsgError e); TaskDone].
Proof.
  intros H. unfold process, process_entry, transcribe_entry, io_bind, emit,
              call, flatten.
  rewrite H. reflexivity.
Qed.

Lemma process_entry_delivers (audio : samples) (raw : string) :
  model_transcribe audio = Returns raw ->
  delivered (process audio)
  = match strip raw with
    | EmptyString => []
    | text => [text ++ " "]
    end%string.
Proof.
  intros H. unfold process, process_entry, transcribe_entry, type_text,
              io_bind, emit, call, io_ret, flatten.
  rewrite H.
  destruct (strip raw) as [|ch text]; [reflexivity|].
  destruct (pyperclip_copy (String ch text ++ " ")) as [[]|e1];
    [destruct (pyautogui_hotkey "command" "v") as [[]|e2]|]; reflexivity.
Qed.

Lemma transcribe_worker_segment (audio : samples) entries :
  worker (Some audio :: entries)
  = (process audio ++ fst (worker entries), snd (worker entries)).
Proof.
  unfold worker, process. cbn [transcribe_worker].
  now destruct (transcribe_worker _ _ _ entries).
Qed.

Lemma transcribe_worker_until_sentinel (segments : list samples) rest :
  worker (map Some segments ++ None :: rest)
  = (flat_map process segments, Exited rest).
Proof.
  induction segments as [|a segments IH]; [reflexivity|].
  cbn [map app flat_map]. rewrite transcribe_worker_segment, IH. reflexivity.
Qed.

Lemma transcribe_worker_without_sentinel (segments : list samples) :
  worker (map Some segments) = (flat_map process segments, Waiting).
Proof.
  induction segments as [|a segments IH]; [reflexivity|].
  cbn [map flat_map]. rewrite transcribe_worker_segment, IH. reflexivity.
Qed.

Lemma flat_map_process_acknowledged (segments : list samples) :
  length (filter is_task_done (flat_map process segments)) = length segments.
Proof.
  induction segments as [|a segments IH]; [reflexivity|].
  cbn [flat_map length]. rewrite filter_app, length_app.
  now rewrite process_entry_acknowledges_once, IH.
Qed.

Lemma flat_map_process_transcribed (segments : list samples) :
  transcribed (flat_map process segments) = segments.
Proof.
  induction segments as [|a segments IH]; [reflexivity|].
  cbn [flat_map]. unfold transcribed in *. rewrite flat_map_app.
  fold (transcribed (process a)).
  now rewrite process_entry_transcribes_once, IH.
Qed.

End WorkerFacts.

(** ** The claims about the transcription worker *)

(** C7: for a queue entry that is not the sentinel, the worker calls the
    speech model once, on the samples of the segment; when the model
    returns, the stripped text goes to the clipboard (followed by a space)
    if and only if it is not empty; when the model raises, the exception is
    printed and nothing is delivered; in every case the entry is
    acknowledged and the worker goes on with the entries that follow. *)
Theorem worker_processes_segment
  (model_transcribe : samples -> outcome string)
  (pyperclip_copy : string -> outcome unit)
  (pyautogui_hotkey : string -> string -> outcome unit)
  (audio_data : samples) (entries : list (option samples)) :
  let process := process_entry model_transcribe pyperclip_copy pyautogui_hotkey in
  let worker := transcribe_worker model_transcribe pyperclip_copy pyautogui_hotkey in
  worker (Some audio_data :: entries)
  = (process audio_data ++ fst (worker entries), snd (worker entries))
  /\ transcribed (process audio_data) = [flatten audio_data]
  /\ length (filter is_task_done (process audio_data)) = 1%nat
  /\ (forall raw,
        model_transcribe (flatten audio_data) = Returns raw ->
        (strip raw <> EmptyString ->
         delivered (process audio_data) = [strip raw ++ " "]%string)
        /\ (strip raw = EmptyString -> delivered (process audio_data) = []))
  /\ (forall e,
        model_transcribe (flatten audio_data) = Raises e ->
        process audio_data
        = [Print (MsgTranscribing (INR (length audio_data) / IZR SAMPLE_RATE));
           Transcribe (flatten audio_data); Print (MsgError e); TaskDone]).
Proof.
  intros process worker. unfold flatten.
  split; [apply transcribe_worker_segment|].
  split; [apply process_entry_transcribes_once|].
  split; [apply process_entry_acknowledges_once|].
  split.
  - intros raw Hraw. unfold process.
    rewrite (process_entry_delivers _ _ _ _ _ Hraw).
    destruct (strip raw); split; intros H; congruence.
  - intros e He. now apply process_entry_raises.
Qed.

(** The scenario of the specification: the model raises on the first
    segment and returns the text hello, surrounded by blanks, on the second. *)
Lemma worker_processes_segment_witness :
  let model := fun a : samples =>
                 if (length a =? 1)%nat
                 then Raises (mkExc "RuntimeError" "model failed")
                 else Returns " hello "%string in
  let copy := fun _ : string => Returns tt in
  let hotkey := fun _ _ : string => Returns tt in
  delivered (process_entry model copy hotkey [0; 0]) = ["hello "%string]
  /\ delivered (process_entry model copy hotkey [0]) = []
  /\ snd (transcribe_worker model copy hotkey [Some [0]; Some [0; 0]]) = Waiting.
Proof.
  intros model copy hotkey.
  pose proof (worker_processes_segment model copy hotkey [0; 0] []) as Hb.
  pose proof (worker_processes_segment model copy hotkey [0] [Some [0; 0]])
    as Ha.
  cbv zeta in Ha, Hb.
  destruct Hb as [Hgo2 [_ [_ [Hret _]]]].
  destruct Ha as [Hgo [_ [_ [_ Hraise]]]].
  split; [|split].
  - apply (proj1 (Hret " hello "%string eq_refl)). discriminate.
  - rewrite (Hraise _ eq_refl). reflexivity.
  - refine (eq_trans (f_equal snd Hgo) _). cbn [snd].
    refine (eq_trans (f_equal snd Hgo2) _). reflexivity.
Defined.

(** C8 (as the code has it): the interrupt handler puts the sentinel behind
    the segments the capture loop has put.  With the sentinel behind them,
    the worker processes the segments put before it, each once and in the
    order they were put, and leaves its loop when it takes the sentinel, the
    later entries staying on the queue; without the sentinel it keeps
    waiting.  [task_done] is called once per segment and not for the
    sentinel, so one unfinished task remains. *)
Theorem worker_drains_then_stops_at_sentinel
  (model_transcribe : samples -> outcome string)
  (pyperclip_copy : string -> outcome unit)
  (pyautogui_hotkey : string -> string -> outcome unit)
  (segments : list samples) (rest : list (option samples)) :
  let process := process_entry model_transcribe pyperclip_copy pyautogui_hotkey in
  let worker := transcribe_worker model_transcribe pyperclip_copy pyautogui_hotkey in
  (forall threshold ticks,
      exists put,
        transcription_queue (stop (capture_loop threshold initial_state ticks))
        = map Some put ++ [None])
  /\ worker (map Some segments ++ None :: rest)
     = (flat_map process segments, Exited rest)
  /\ worker (map Some segments) = (flat_map process segments, Waiting)
  /\ transcribed (flat_map process segments) = segments
  /\ length (filter is_task_done (flat_map process segments)) = length segments
  /\ unfinished_tasks (map Some segments ++ [None])
                      (fst (worker (map Some segments ++ [None]))) = 1%nat.
Proof.
  intros process worker.
  split.
  { intros threshold ticks.
    destruct (capture_loop_queue threshold ticks initial_state) as [put Hput].
    exists put. unfold stop, queue_put, print.
    cbn [transcription_queue]. rewrite Hput. reflexivity. }
  split; [apply transcribe_worker_until_sentinel|].
  split; [apply transcribe_worker_without_sentinel|].
  split; [apply flat_map_process_transcribed|].
  split; [apply flat_map_process_acknowledged|].
  unfold worker. rewrite transcribe_worker_until_sentinel. cbn [fst].
  unfold unfinished_tasks.
  rewrite flat_map_process_acknowledged, length_app, length_map.
  cbn [length]. lia.
Qed.

(** C8 as stated fails: after a segment and the sentinel the worker has
    left its loop having called [task_done] once, for the segment; the
    sentinel is never acknowledged and one task stays unfinished. *)
Lemma sentinel_is_not_acknowledged :
  let model := fun _ : samples => Returns "hello"%string in
  let copy := fun _ : string => Returns tt in
  let hotkey := fun _ _ : string => Returns tt in
  let run := transcribe_worker model copy hotkey [Some [0]; None] in
  snd run = Exited []
  /\ length (filter is_task_done (fst run)) = 1%nat
  /\ unfinished_tasks [Some [0]; None] (fst run) = 1%nat
  /\ snd (transcribe_worker model copy hotkey [None]) = Exited []
  /\ fst (transcribe_worker model copy hotkey [None]) = [].
Proof.
  cbv zeta.
  rewrite (transcribe_worker_until_sentinel _ _ _ [[0]] []).
  cbn [snd fst flat_map]. rewrite app_nil_r.
  unfold unfinished_tasks.
  rewrite process_entry_acknowledges_once.
  repeat split; reflexivity.
Qed.


(** * Further properties of the code *)

(** ** The RMS meter *)









(** ** The calibration *)

Lemma calibrate_recording_with_magnitude (multiplier c : R) (recording : samples) :
  (BLOCK_SIZE <= length recording)%nat ->
  Forall (fun x => Rabs x = c) recording ->
  calibrate_recording_with multiplier recording
  = Returns (Rmax (c * multiplier) min_threshold).
Proof.
  intros Hlen Hall.
  destruct (calibrate_recording_with_value multiplier _ Hlen)
    as [max_rms [Hin [_ ->]]].
  apply in_map_iff in Hin. destruct Hin as [b [<- Hb]].
  do 2 f_equal. f_equal.
  apply calculate_rms_const.
  - pose proof (spec_blocks_length recording) as Hbl.
    rewrite Forall_forall in Hbl. specialize (Hbl b Hb).
    pose proof BLOCK_SIZE_pos. intros ->. cbn [length] in Hbl. lia.
  - rewrite Forall_forall in Hall. apply Forall_forall. intros x Hx.
    apply Hall. now apply (spec_blocks_incl _ _ _ Hb).
Qed.

Lemma calibrate_recording_with_returns (multiplier threshold : R)
      (recording : samples) :
  calibrate_recording_with multiplier recording = Returns threshold ->
  (BLOCK_SIZE <= length recording)%nat.
Proof.
  intros H.
  destruct (Nat.lt_ge_cases (length recording) BLOCK_SIZE) as [Hlt|Hge];
    [|exact Hge].
  rewrite (calibrate_recording_with_short _ _ Hlt) in H. discriminate.
Qed.

Lemma spec_blocks_one_block (c : R) :
  spec_blocks (repeat c BLOCK_SIZE) = [repeat c BLOCK_SIZE].
Proof.
  pose proof BLOCK_SIZE_pos as Hpos.
  unfold spec_blocks. rewrite repeat_length, Nat.div_same by lia.
  cbn [seq map]. rewrite Nat.mul_0_l. cbn [skipn].
  rewrite firstn_all2; [reflexivity|]. now rewrite repeat_length.
Qed.

(** The samples after the last full block play no part in the calibration:
    a recording made of whole blocks gives the same result, threshold or
    exception, with or without an incomplete block behind it. *)
Theorem calibration_ignores_incomplete_block
  (multiplier : R) (whole rest : samples) :
  (length whole mod BLOCK_SIZE = 0)%nat ->
  (length rest < BLOCK_SIZE)%nat ->
  calibrate_recording_with multiplier (whole ++ rest)
  = calibrate_recording_with multiplier whole.
Proof.
  intros Hwhole Hrest. pose proof BLOCK_SIZE_pos as Hpos.
  assert (Hk : length whole = (length whole / BLOCK_SIZE * BLOCK_SIZE)%nat).
  { rewrite Nat.mul_comm. now apply Nat.Div0.div_exact. }
  assert (Hnb : (length (whole ++ rest) / BLOCK_SIZE
                 = length whole / BLOCK_SIZE)%nat).
  { rewrite length_app, Hk at 1.
    rewrite Nat.div_add_l by lia. rewrite (Nat.div_small _ _ Hrest). lia. }
  unfold calibrate_recording_with. rewrite Hnb, <- Hk.
  rewrite firstn_app, Nat.sub_diag. cbn [firstn]. now rewrite app_nil_r.
Qed.

Lemma calibration_ignores_incomplete_block_witness :
  calibrate_recording_with 2 (repeat 1 BLOCK_SIZE ++ [9; 9; 9])
  = calibrate_recording_with 2 (repeat 1 BLOCK_SIZE).
Proof.
  apply calibration_ignores_incomplete_block.
  - rewrite repeat_length. apply Nat.Div0.mod_same.
  - unfold BLOCK_SIZE. cbn [length]. lia.
Defined.



Lemma capture_loop_quiet_idle (threshold : R) (ticks : list Tick) :
  forall st,
    is_recording st = false ->
    Forall (fun tk => calculate_rms (indata tk) <= threshold) ticks ->
    machine (capture_loop threshold st ticks) = machine st
    /\ segments_closed (capture_loop threshold st ticks) = segments_closed st.
Proof.
  induction ticks as [|tk rest IH]; intros st Hidle Hquiet; [now split|].
  inversion Hquiet as [|? ? Hq Hqrest]; subst.
  destruct (loop_iteration_quiet_idle threshold st tk Hq Hidle) as [Hm Hc].
  assert (Hidle' : is_recording (loop_iteration threshold st tk) = false).
  { apply (f_equal (fun m => snd (fst (fst m)))) in Hm.
    unfold machine in Hm. cbn [fst snd] in Hm. congruence. }
  destruct (IH _ Hidle' Hqrest) as [Hm' Hc'].
  rewrite capture_loop_cons. split; congruence.
Qed.

(** The ambient noise the threshold was calibrated on counts as silence:
    with the threshold [calibrate_noise] returns, no block of the
    calibration recording starts a recording. *)
Theorem calibration_noise_is_silence
  (sd_rec : Z -> outcome samples) (duration threshold : R)
  (recording : samples) (st : CaptureState) (ticks : list Tick) :
  sd_rec (py_int (duration * IZR SAMPLE_RATE)) = Returns recording ->
  calibrate_noise sd_rec duration = Returns threshold ->
  is_recording st = false ->
  Forall (fun tk => In (indata tk) (spec_blocks recording)) ticks ->
  Forall (fun tk => calculate_rms (indata tk) <= threshold) ticks
  /\ machine (capture_loop threshold st ticks) = machine st
  /\ segments_closed (capture_loop threshold st ticks) = segments_closed st.
Proof.
  intros Hrec Hcal Hidle Hblocks.
  unfold calibrate_noise, calibrate_noise_with in Hcal.
  rewrite Hrec in Hcal. cbn [bind] in Hcal.
  pose proof (calibrate_recording_with_returns _ _ _ Hcal) as Hlen.
  destruct (calibrate_recording_with_value SILENCE_THRESHOLD_MULTIPLIER
              recording Hlen) as [max_rms [Hin [Hall Heq]]].
  rewrite Heq in Hcal. injection Hcal as Hth.
  assert (Hpos : 0 <= max_rms).
  { apply in_map_iff in Hin. destruct Hin as [b [<- _]].
    apply calculate_rms_nonneg. }
  assert (Hquiet : Forall (fun tk => calculate_rms (indata tk) <= threshold)
                          ticks).
  { rewrite Forall_forall in Hblocks, Hall. apply Forall_forall.
    intros tk Htk.
    assert (Hle : calculate_rms (indata tk) <= max_rms)
      by (apply Hall, in_map, Hblocks, Htk).
    pose proof (Rmax_l (max_rms * SILENCE_THRESHOLD_MULTIPLIER) min_threshold)
      as Hmax.
    rewrite Hth in Hmax. unfold SILENCE_THRESHOLD_MULTIPLIER in Hmax. lra. }
  split; [exact Hquiet|].
  now apply capture_loop_quiet_idle.
Qed.

Lemma calibration_noise_is_silence_witness :
  let noise := repeat (1 / 100) BLOCK_SIZE in
  let threshold := Rmax (1 / 100 * SILENCE_THRESHOLD_MULTIPLIER) min_threshold in
  machine (capture_loop threshold initial_state [mkTick noise false 0 0])
  = machine initial_state.
Proof.
  intros noise threshold.
  assert (Hcal : calibrate_noise (fun _ => Returns noise) 2 = Returns threshold).
  { unfold calibrate_noise, calibrate_noise_with. cbn [bind].
    apply calibrate_recording_with_magnitude.
    - unfold noise. rewrite repeat_length. apply Nat.le_refl.
    - apply Forall_forall. intros x Hx. apply repeat_spec in Hx. subst.
      apply Rabs_right. lra. }
  apply (calibration_noise_is_silence
           (fun _ => Returns noise) 2 threshold noise initial_state
           [mkTick noise false 0 0] eq_refl Hcal eq_refl).
  apply Forall_cons; [|apply Forall_nil].
  cbn [indata]. unfold noise. rewrite spec_blocks_one_block. now left.
Defined.

(** The call [main] makes, with the default duration of 2.0 s, asks the
    capture for 32000 frames; a recording of that length is cut into 31
    blocks and a threshold, at least the floor, is returned. *)
Theorem calibrate_noise_default_duration
  (sd_rec : Z -> outcome samples) (recording : samples) :
  sd_rec 32000%Z = Returns recording ->
  Z.of_nat (length recording) = 32000%Z ->
  py_int (DEFAULT_DURATION * IZR SAMPLE_RATE) = 32000%Z
  /\ length (spec_blocks recording) = 31%nat
  /\ exists threshold,
       calibrate_noise sd_rec DEFAULT_DURATION = Returns threshold
       /\ min_threshold <= threshold.
Proof.
  intros Hrec Hlen.
  assert (Hframes : py_int (DEFAULT_DURATION * IZR SAMPLE_RATE) = 32000%Z).
  { replace (DEFAULT_DURATION * IZR SAMPLE_RATE) with (IZR 32000)
      by (unfold DEFAULT_DURATION, SAMPLE_RATE; lra).
    apply py_int_IZR. }
  assert (Hnb : (length recording / BLOCK_SIZE = 31)%nat).
  { apply Nat2Z.inj. rewrite Nat2Z.inj_div, Hlen. reflexivity. }
  assert (Hge : (BLOCK_SIZE <= length recording)%nat).
  { pose proof BLOCK_SIZE_pos.
    destruct (Nat.lt_ge_cases (length recording) BLOCK_SIZE) as [Hlt|H']; [|exact H'].
    rewrite (Nat.div_small _ _ Hlt) in Hnb. discriminate. }
  split; [exact Hframes|]. split.
  - unfold spec_blocks. now rewrite length_map, length_seq.
  - unfold calibrate_noise, calibrate_noise_with. rewrite Hframes, Hrec.
    cbn [bind].
    destruct (calibrate_recording_with_value SILENCE_THRESHOLD_MULTIPLIER
                recording Hge) as [max_rms [_ [_ ->]]].
    eexists. split; [reflexivity|apply Rmax_r].
Qed.

Lemma calibrate_noise_default_duration_witness :
  exists threshold,
    calibrate_noise (fun frames => Returns (repeat 0 (Z.to_nat frames)))
                    DEFAULT_DURATION = Returns threshold
    /\ min_threshold <= threshold.
Proof.
  apply (calibrate_noise_default_duration
           (fun frames => Returns (repeat 0 (Z.to_nat frames)))
           (repeat 0 (Z.to_nat 32000)) eq_refl).
  rewrite repeat_length. apply Z2Nat.id. lia.
Defined.




(** ** The capture loop *)

(** The six ways an iteration can go, with the state each leaves. *)
Lemma loop_iteration_outcomes (threshold : R) b r t q c d ov s k :
  let st' := loop_iteration threshold (mkCapture b r t q c) (mkTick d ov s k) in
  let c0 := c ++ (if ov then [overflow_line] else []) in
  let segment := concat (b ++ [d]) in
  let started := match t with None => s | Some t0 => t0 end in
  (r = true /\ st' = mkCapture (b ++ [d]) true None q c0)
  \/ (r = false /\ st' = mkCapture [d] true None q (c0 ++ [speech_line]))
  \/ (r = true /\ long_enough segment
      /\ st' = mkCapture [] false None (q ++ [Some segment])
                 (c0 ++ [end_of_speech_line; listening_line]))
  \/ (r = true /\ ~ long_enough segment
      /\ st' = mkCapture [] false None q
                 (c0 ++ [end_of_speech_line; too_short_line; listening_line]))
  \/ (r = true /\ st' = mkCapture (b ++ [d]) true (Some started) q c0)
  \/ (r = false /\ st' = mkCapture b false t q c0).
Proof.
  cbv zeta. unfold loop_iteration. cbv zeta.
  rewrite !report_overflow_record.
  set (c0 := c ++ (if ov then [overflow_line] else [])).
  cbn [indata clock_start clock_check is_recording].
  destruct (Rgt_dec (calculate_rms d) threshold) as [Hloud|Hquiet].
  - destruct r; cbn [negb].
    + left. split; [reflexivity|]. eval_setters. reflexivity.
    + right; left. split; [reflexivity|]. eval_setters. reflexivity.
  - destruct r.
    + eval_setters.
      set (started := match t with None => s | Some t0 => t0 end).
      destruct (Rgt_dec (k - started) SILENCE_DURATION) as [Hclose|Hopen].
      * destruct (Rge_dec (INR (length (concat (b ++ [d]))) / IZR SAMPLE_RATE)
                          MIN_RECORDING_DURATION) as [Hlong|Hshort].
        -- right; right; left. split; [reflexivity|]. split; [exact Hlong|].
           now apply close_segment_long.
        -- right; right; right; left.
           split; [reflexivity|]. split; [exact Hshort|].
           now apply close_segment_short.
      * right; right; right; right; left. split; reflexivity.
    + right; right; right; right; right. split; reflexivity.
Qed.

Lemma count_occ_overflow_flag (ov : bool) (l : line) :
  l <> overflow_line ->
  count_occ line_eq_dec (if ov then [overflow_line] else []) l = 0%nat.
Proof.
  intros Hl. destruct ov; [|reflexivity]. cbn [count_occ].
  destruct (line_eq_dec overflow_line l); [congruence|reflexivity].
Qed.

(** The books of one iteration: a segment closed is a segment put on the
    queue or a segment discarded. *)
Lemma loop_iteration_accounting (threshold : R) (st : CaptureState) (tk : Tick) :
  (segments_closed (loop_iteration threshold st tk)
   + length (transcription_queue st) + segments_discarded st
   = segments_closed st
     + length (transcription_queue (loop_iteration threshold st tk))
     + segments_discarded (loop_iteration threshold st tk))%nat.
Proof.
  destruct st as [b r t q c], tk as [d ov s k].
  pose proof (loop_iteration_outcomes threshold b r t q c d ov s k) as H.
  cbv zeta in H.
  assert (He : count_occ line_eq_dec (if ov then [overflow_line] else [])
                         end_of_speech_line = 0%nat)
    by (apply count_occ_overflow_flag; discriminate).
  assert (Hs : count_occ line_eq_dec (if ov then [overflow_line] else [])
                         too_short_line = 0%nat)
    by (apply count_occ_overflow_flag; discriminate).
  unfold segments_closed, segments_discarded.
  destruct H as [[_ ->]|[[_ ->]|[[_ [_ ->]]|[[_ [_ ->]]|[[_ ->]|[_ ->]]]]]];
    cbn [console transcription_queue];
    rewrite ?count_occ_app, ?length_app, ?He, ?Hs;
    cbn [length];
    repeat match goal with
           | |- context [count_occ line_eq_dec (?x :: ?l) ?y] =>
               rewrite (count_occ_cons_eq line_eq_dec l (x := x) (y := y))
                 by reflexivity
           | |- context [count_occ line_eq_dec (?x :: ?l) ?y] =>
               rewrite (count_occ_cons_neq line_eq_dec l (x := x) (y := y))
                 by discriminate
           end;
    cbn [count_occ]; lia.
Qed.

Lemma long_enough_samples (segment : samples) :
  long_enough segment <-> (8000 <= Z.of_nat (length segment))%Z.
Proof.
  unfold long_enough, SAMPLE_RATE, MIN_RECORDING_DURATION.
  rewrite INR_IZR_INZ. split; intros H.
  - apply le_IZR. lra.
  - apply IZR_le in H. lra.
Qed.

Lemma loop_iteration_queue_long (threshold : R) (st : CaptureState) (tk : Tick) :
  exists added,
    transcription_queue (loop_iteration threshold st tk)
    = transcription_queue st ++ map Some added
    /\ Forall long_enough added.
Proof.
  destruct st as [b r t q c], tk as [d ov s k].
  pose proof (loop_iteration_outcomes threshold b r t q c d ov s k) as H.
  cbv zeta in H. cbn [transcription_queue].
  destruct H as [[_ ->]|[[_ ->]|[[_ [Hlong ->]]|[[_ [_ ->]]|[[_ ->]|[_ ->]]]]]];
    cbn [transcription_queue];
    try (exists []; split; [now rewrite app_nil_r|constructor]).
  exists [concat (b ++ [d])]. split; [reflexivity|]. now constructor.
Qed.

Lemma settled_loop_iteration (threshold : R) (st : CaptureState) (tk : Tick) :
  settled st -> settled (loop_iteration threshold st tk).
Proof.
  destruct st as [b r t q c], tk as [d ov s k].
  pose proof (loop_iteration_outcomes threshold b r t q c d ov s k) as H.
  cbv zeta in H. unfold settled.
  cbn [is_recording audio_buffer silence_start_time].
  intros [Hidle Hrec].
  assert (Hbd : b ++ [d] <> []) by (intros E; now apply app_eq_nil in E).
  destruct H as [[_ ->]|[[_ ->]|[[_ [_ ->]]|[[_ [_ ->]]|[[_ ->]|[Hr ->]]]]]];
    cbn [is_recording audio_buffer silence_start_time].
  - split; [discriminate|intros _; exact Hbd].
  - split; [discriminate|intros _; discriminate].
  - split; [now split|discriminate].
  - split; [now split|discriminate].
  - split; [discriminate|intros _; exact Hbd].
  - split; [intros _; now apply Hidle|discriminate].
Qed.

(** A block louder than the threshold is always buffered and unsets the
    silence timer, whatever the timer held: from the idle state it starts a
    recording whose buffer holds this block alone, while recording it is
    appended.  It puts nothing on the queue and closes no segment. *)
Theorem loud_block_extends_recording
  (threshold : R) (st : CaptureState) (tk : Tick) :
  calculate_rms (indata tk) > threshold ->
  let st' := loop_iteration threshold st tk in
  is_recording st' = true
  /\ silence_start_time st' = None
  /\ audio_buffer st'
     = (if is_recording st then audio_buffer st else []) ++ [indata tk]
  /\ transcription_queue st' = transcription_queue st
  /\ segments_closed st' = segments_closed st.
Proof.
  intros Hloud st'.
  destruct (loop_iteration_loud threshold st tk Hloud) as [Hm Hc].
  destruct (machine_fields _ _ _ _ _ Hm) as [Hb [Hr [Ht Hq]]].
  repeat split; assumption.
Qed.

Lemma loud_block_extends_recording_witness :
  let st := mkCapture [[5]] false (Some 7) [] [] in
  let tk := mkTick (repeat 1 BLOCK_SIZE) false 0 0 in
  audio_buffer (loop_iteration (1 / 100) st tk) = [repeat 1 BLOCK_SIZE].
Proof.
  intros st tk.
  assert (Hloud : calculate_rms (indata tk) > 1 / 100)
    by (cbn [indata tk]; rms_of_repeat; lra).
  apply (proj1 (proj2 (proj2
           (loud_block_extends_recording (1 / 100) st tk Hloud)))).
Defined.

(** While idle, blocks at or below the threshold are dropped: over any run
    of them nothing is buffered, the machine stays as it was and the queue
    is untouched. *)
Theorem quiet_blocks_while_idle_are_dropped
  (threshold : R) (st : CaptureState) (ticks : list Tick) :
  is_recording st = false ->
  Forall (fun tk => calculate_rms (indata tk) <= threshold) ticks ->
  machine (capture_loop threshold st ticks) = machine st
  /\ segments_closed (capture_loop threshold st ticks) = segments_closed st.
Proof. intros Hidle Hquiet. now apply capture_loop_quiet_idle. Qed.

Lemma quiet_blocks_while_idle_are_dropped_witness :
  let quiet := mkTick (repeat 0 BLOCK_SIZE) true 4 4 in
  machine (capture_loop (1 / 100) initial_state [quiet; quiet; quiet])
  = machine initial_state.
Proof.
  intros quiet.
  apply (quiet_blocks_while_idle_are_dropped
           (1 / 100) initial_state [quiet; quiet; quiet] eq_refl).
  repeat (apply Forall_cons; [cbn [indata quiet]; rms_of_repeat; lra|]).
  apply Forall_nil.
Defined.

Lemma capture_loop_settled (threshold : R) (ticks : list Tick) :
  forall st, settled st -> settled (capture_loop threshold st ticks).
Proof.
  induction ticks as [|tk rest IH]; intros st Hst; [exact Hst|].
  rewrite capture_loop_cons. apply IH. now apply settled_loop_iteration.
Qed.

(** Between two iterations of the loop started by [main], the machine is
    settled: while idle the buffer is empty and the silence timer unset (so
    a set timer means a recording is on), and while recording the buffer
    holds at least one block. *)
Theorem capture_loop_keeps_settled (threshold : R) (ticks : list Tick) :
  settled (capture_loop threshold initial_state ticks).
Proof.
  apply capture_loop_settled. unfold settled, initial_state.
  cbn [is_recording audio_buffer silence_start_time].
  split; [now split|discriminate].
Qed.

Lemma capture_loop_queue_long (threshold : R) (ticks : list Tick) :
  forall st,
    exists added,
      transcription_queue (capture_loop threshold st ticks)
      = transcription_queue st ++ map Some added
      /\ Forall long_enough added.
Proof.
  induction ticks as [|tk rest IH]; intros st.
  - exists []. split; [|constructor].
    cbn [capture_loop fold_left map]. now rewrite app_nil_r.
  - rewrite capture_loop_cons.
    destruct (IH (loop_iteration threshold st tk)) as [added2 [-> H2]].
    destruct (loop_iteration_queue_long threshold st tk) as [added1 [-> H1]].
    exists (added1 ++ added2). split.
    + now rewrite map_app, app_assoc.
    + apply Forall_app. now split.
Qed.

(** The loop only ever appends to the queue, and what it appends are
    segments (never the sentinel) of at least [MIN_RECORDING_DURATION]
    seconds, that is of 8000 samples or more. *)
Theorem capture_loop_enqueues_only_long_segments
  (threshold : R) (st : CaptureState) (ticks : list Tick) :
  exists added,
    transcription_queue (capture_loop threshold st ticks)
    = transcription_queue st ++ map Some added
    /\ Forall long_enough added
    /\ Forall (fun segment => (8000 <= Z.of_nat (length segment))%Z) added.
Proof.
  destruct (capture_loop_queue_long threshold ticks st) as [added [Hq Hlong]].
  exists added. split; [exact Hq|]. split; [exact Hlong|].
  eapply Forall_impl; [|exact Hlong].
  intros segment. apply long_enough_samples.
Qed.

(** Every segment the loop closes is accounted for: from the start of
    [main], the segments closed are the segments put on the queue plus the
    segments discarded as too short. *)
Theorem closed_segments_are_enqueued_or_discarded
  (threshold : R) (ticks : list Tick) :
  let st' := capture_loop threshold initial_state ticks in
  segments_closed st'
  = (length (transcription_queue st') + segments_discarded st')%nat.
Proof.
  cbv zeta.
  assert (H : forall st,
             (segments_closed (capture_loop threshold st ticks)
              + length (transcription_queue st) + segments_discarded st
              = segments_closed st
                + length (transcription_queue (capture_loop threshold st ticks))
                + segments_discarded (capture_loop threshold st ticks))%nat).
  { induction ticks as [|tk rest IH]; intros st.
    - cbn [capture_loop fold_left]. lia.
    - rewrite capture_loop_cons.
      pose proof (IH (loop_iteration threshold st tk)) as H1.
      pose proof (loop_iteration_accounting threshold st tk) as H2. lia. }
  specialize (H initial_state).
  change (transcription_queue initial_state) with (@nil (option samples)) in H.
  change (segments_discarded initial_state) with 0%nat in H.
  change (segments_closed initial_state) with 0%nat in H.
  cbn [length] in H. lia.
Qed.

Lemma capture_loop_pause (threshold : R) (st : CaptureState) (pause : list Tick) :
  is_recording st = true ->
  silence_start_time st = None ->
  Forall (fun tk => calculate_rms (indata tk) <= threshold) pause ->
  Forall (fun tk => clock_check tk
                    - match pause with [] => 0 | first :: _ => clock_start first end
                    <= SILENCE_DURATION) pause ->
  machine (capture_loop threshold st pause)
  = (audio_buffer st ++ map indata pause, true,
     match pause with [] => None | first :: _ => Some (clock_start first) end,
     transcription_queue st)
  /\ segments_closed (capture_loop threshold st pause) = segments_closed st.
Proof.
  intros Hrec Htimer Hquiet Hopen.
  destruct pause as [|tk rest].
  - cbn [capture_loop fold_left map]. rewrite app_nil_r. unfold machine.
    now rewrite Hrec, Htimer.
  - inversion Hquiet as [|? ? Hq1 Hq]; subst.
    inversion Hopen as [|? ? Ho1 Ho]; subst.
    assert (Hst : silence_started st tk = clock_start tk)
      by (unfold silence_started; now rewrite Htimer).
    destruct (loop_iteration_quiet_open threshold st tk Hrec Hq1
                ltac:(now rewrite Hst)) as [Hm Hc].
    rewrite Hst in Hm.
    destruct (machine_fields _ _ _ _ _ Hm) as [Hb [Hr [Ht Hqueue]]].
    destruct (capture_loop_quiet_open threshold (clock_start tk) rest
                (loop_iteration threshold st tk) Hr Ht Hq Ho) as [Hm' Hc'].
    rewrite capture_loop_cons, Hm', Hc', Hb, Hqueue, Hc. split; [|reflexivity].
    cbn [map]. now rewrite <- app_assoc.
Qed.

(** A pause does not cut a segment: when speech resumes before the silence
    has lasted longer than [SILENCE_DURATION], the timer is unset again and
    the recording goes on with the speech, the pause and the resumed speech
    all in the buffer; nothing is closed and nothing is put on the queue. *)
Theorem pause_does_not_split_segment
  (threshold : R) (st : CaptureState) (speech pause resumed : list Tick) :
  is_recording st = false ->
  speech <> [] ->
  resumed <> [] ->
  Forall (fun tk => calculate_rms (indata tk) > threshold) speech ->
  Forall (fun tk => calculate_rms (indata tk) <= threshold) pause ->
  Forall (fun tk => calculate_rms (indata tk) > threshold) resumed ->
  Forall (fun tk => clock_check tk
                    - match pause with [] => 0 | first :: _ => clock_start first end
                    <= SILENCE_DURATION) pause ->
  let st' := capture_loop threshold st (speech ++ pause ++ resumed) in
  machine st'
  = (map indata (speech ++ pause ++ resumed), true, None,
     transcription_queue st)
  /\ segments_closed st' = segments_closed st.
Proof.
  intros Hidle Hne1 Hne2 Hloud1 Hquiet Hloud2 Hopen st'. unfold st'.
  rewrite !capture_loop_app.
  destruct (capture_loop_loud threshold speech st Hne1 Hloud1) as [Hm1 Hc1].
  rewrite Hidle in Hm1. cbn [app] in Hm1.
  destruct (machine_fields _ _ _ _ _ Hm1) as [Hb1 [Hr1 [Ht1 Hq1]]].
  set (st1 := capture_loop threshold st speech) in *.
  destruct (capture_loop_pause threshold st1 pause Hr1 Ht1 Hquiet Hopen)
    as [Hm2 Hc2].
  destruct (machine_fields _ _ _ _ _ Hm2) as [Hb2 [Hr2 [_ Hq2]]].
  set (st2 := capture_loop threshold st1 pause) in *.
  destruct (capture_loop_loud threshold resumed st2 Hne2 Hloud2) as [Hm3 Hc3].
  rewrite Hm3, Hc3, Hc2, Hc1, Hr2, Hb2, Hb1, Hq2, Hq1.
  split; [|reflexivity]. now rewrite !map_app, app_assoc.
Qed.

Lemma pause_does_not_split_segment_witness :
  let speech := mkTick (repeat 1 BLOCK_SIZE) false 0 0 in
  let quiet := fun t => mkTick (repeat 0 BLOCK_SIZE) false t t in
  machine (capture_loop (1 / 100) initial_state
             ([speech] ++ [quiet 10; quiet 12] ++ [speech]))
  = (map indata ([speech] ++ [quiet 10; quiet 12] ++ [speech]), true, None, []).
Proof.
  intros speech quiet.
  apply (pause_does_not_split_segment
           (1 / 100) initial_state [speech] [quiet 10; quiet 12] [speech]).
  - reflexivity.
  - discriminate.
  - discriminate.
  - apply Forall_cons; [cbn [indata speech]; rms_of_repeat; lra|apply Forall_nil].
  - repeat (apply Forall_cons; [cbn [indata quiet]; rms_of_repeat; lra|]).
    apply Forall_nil.
  - apply Forall_cons; [cbn [indata speech]; rms_of_repeat; lra|apply Forall_nil].
  - repeat (apply Forall_cons;
            [cbn [clock_check clock_start quiet]; unfold SILENCE_DURATION; lra|]).
    apply Forall_nil.
Defined.






(** ** The transcription worker *)







(** How a text is typed, and what a failure on the way costs: the stripped
    text followed by a space goes to the clipboard, then Command+V is
    pressed.  When the clipboard raises, no key is pressed; when the
    keystroke raises, the exception is printed; either way the entry is
    acknowledged. *)
Theorem delivery_steps_and_failures
  (model_transcribe : samples -> outcome string)
  (pyperclip_copy : string -> outcome unit)
  (pyautogui_hotkey : string -> string -> outcome unit)
  (audio_data : samples) (raw text : string) :
  model_transcribe audio_data = Returns raw ->
  strip raw = text ->
  text <> EmptyString ->
  let t := process_entry model_transcribe pyperclip_copy pyautogui_hotkey
             audio_data in
  let start :=
    [Print (MsgTranscribing (INR (length audio_data) / IZR SAMPLE_RATE));
     Transcribe audio_data; Print (MsgTranscribed text);
     Print (MsgTyping text); ClipboardCopy (text ++ " ")] in
  (forall e, pyperclip_copy (text ++ " ")%string = Raises e ->
             t = start ++ [Print (MsgError e); TaskDone])
  /\ (forall e, pyperclip_copy (text ++ " ")%string = Returns tt ->
                pyautogui_hotkey "command"%string "v"%string = Raises e ->
                t = start ++ [Hotkey "command" "v"; Print (MsgError e); TaskDone])
  /\ (pyperclip_copy (text ++ " ")%string = Returns tt ->
      pyautogui_hotkey "command"%string "v"%string = Returns tt ->
      t = start ++ [Hotkey "command" "v"; TaskDone]).
Proof.
  intros Hraw Hstrip Hne t start. unfold t, start.
  unfold process_entry, transcribe_entry, type_text, io_bind, emit, call,
    io_ret, flatten.
  rewrite Hraw, Hstrip.
  destruct text as [|ch text']; [congruence|].
  split; [|split].
  - intros e ->. reflexivity.
  - intros e -> ->. reflexivity.
  - intros -> ->. reflexivity.
Qed.

Lemma delivery_steps_and_failures_witness :
  let clipboard_error := mkExc "PyperclipException" "no copy mechanism" in
  let t := process_entry (fun _ => Returns " hi "%string)
                         (fun _ => Raises clipboard_error)
                         (fun _ _ => Returns tt) [0] in
  t = [Print (MsgTranscribing (INR (length [0]) / IZR SAMPLE_RATE));
       Transcribe [0]; Print (MsgTranscribed "hi");
       Print (MsgTyping "hi"); ClipboardCopy "hi "]
      ++ [Print (MsgError clipboard_error); TaskDone].
Proof.
  intros clipboard_error t.
  apply (proj1 (delivery_steps_and_failures
                  (fun _ => Returns " hi "%string)
                  (fun _ => Raises clipboard_error)
                  (fun _ _ => Returns tt) [0] " hi "%string "hi"%string
                  eq_refl eq_refl ltac:(discriminate))).
  reflexivity.
Defined.

(** From the microphone to the model: whatever blocks the capture loop
    reads before [main] is interrupted, the worker run on the queue it
    leaves transcribes exactly the segments dispatched, each once and in
    the order of dispatch, every one of them at least
    [MIN_RECORDING_DURATION] long, acknowledges each, and then leaves its
    loop on the sentinel with nothing left on the queue. *)
Theorem dispatched_segments_are_transcribed_in_order
  (model_transcribe : samples -> outcome string)
  (pyperclip_copy : string -> outcome unit)
  (pyautogui_hotkey : string -> string -> outcome unit)
  (threshold : R) (ticks : list Tick) :
  let queue :=
    transcription_queue (stop (capture_loop threshold initial_state ticks)) in
  let run :=
    transcribe_worker model_transcribe pyperclip_copy pyautogui_hotkey queue in
  exists segments,
    queue = map Some segments ++ [None]
    /\ Forall long_enough segments
    /\ transcribed (fst run) = segments
    /\ length (filter is_task_done (fst run)) = length segments
    /\ snd run = Exited [].
Proof.
  cbv zeta.
  destruct (capture_loop_queue_long threshold ticks initial_state)
    as [segments [Hq Hlong]].
  cbn [initial_state transcription_queue app] in Hq.
  exists segments.
  assert (Hqueue : transcription_queue
                     (stop (capture_loop threshold initial_state ticks))
                   = map Some segments ++ [None]).
  { unfold stop, queue_put, print. cbn [transcription_queue].
    now rewrite Hq. }
  rewrite Hqueue, transcribe_worker_until_sentinel. cbn [fst snd].
  split; [reflexivity|]. split; [exact Hlong|].
  split; [apply flat_map_process_transcribed|].
  split; [apply flat_map_process_acknowledged|reflexivity].
Qed.


(** ** The recording test *)


